(** * OctoPulse: Conway's Game of Life on a toroidal grid

    A shallow embedding of [Script.ts], to which the line numbers below
    refer.  (The repository also carries the script as plain JavaScript,
    with the same functions statement for statement; the two differ only in
    the background colour that [draw] paints.)

    The script keeps its state in module-level [let] variables and its
    functions read and write them, so every function is embedded as a
    computation in a small monad: it takes the current [World], may throw
    a JavaScript exception, and reports the side effects it performed. *)

From Stdlib Require Import ZArith QArith Qround Lia Bool List.
From Stdlib Require Import PrimFloat.
From Stdlib Require SpecFloat FloatOps.
From stdpp Require Import base list strings.
Import ListNotations.

Local Open Scope Z_scope.

(* ===================================================================== *)
(** ** JavaScript values used by the script *)
(* ===================================================================== *)

(** [type Grid = number[][]].  Every cell the script ever stores is an
    integer, so a cell is a [Z].  Rows are separate arrays: the script
    builds each one with its own [Array(cols).fill(0)] call and only ever
    rebinds the variable [grid] to a freshly built array, so no two rows
    (and no two grids) share storage and lists with value semantics are a
    faithful picture of them. *)
Abbreviation Grid := (list (list Z)).

(** A number used as an array index.  The only non-integer the script can
    produce in index position is the [NaN] that [%] returns for a zero
    divisor. *)
Inductive Num : Type :=
  | Int (z : Z)
  | NaN.

(** The exceptions an evaluation can end in.  [OutsideModel] is not a
    JavaScript exception: it marks the two behaviours that [Grid] cannot
    represent (an assignment past the end of a row, which would grow the
    row and leave holes, and storing [undefined] into a cell).  The
    theorems below show that no run from a well-formed state reaches
    it. *)
Inductive Exn : Type :=
  | TypeError
  | RangeError
  | OutsideModel.

(** Side effects that leave the script: each evaluation of the remainder
    operator is recorded with its operands, as are the background fill
    (whose colour is the one thing the two source files disagree on, and is
    left out), the rounded rectangles painted on the canvas with their fill
    colour ([None] for [undefined]), and each request for the next
    animation frame. *)
Inductive Event : Type :=
  | EvRemainder (dividend divisor : Z)
  | EvClearCanvas
  | EvRoundedRect (x y width height radius : Z) (fillStyle : option string)
  | EvRequestFrame.

(* ===================================================================== *)
(** ** Constants (lines 4-8) *)
(* ===================================================================== *)

Definition CELL_SIZE : Z := 10.
Definition CELL_RADIUS : Z := 2.
Definition GITHUB_COLORS : list string :=
  ["#9be9a8"; "#40c463"; "#30a14e"; "#216e39"]%string.
Definition DEFAULT_SPEED : Z := 2.
Definition RANDOM_DENSITY : Q := 3 # 10.

(* ===================================================================== *)
(** ** State (lines 30-35) and the browser's random source *)
(* ===================================================================== *)

(** The six [let] variables of the script, in source order, followed by
    the outcomes of [Math.random()]: [randomTape k] is what the [k]-th
    call returns and [randomCalls] counts the calls made so far.
    Timestamps are doubles in the script: they are the kernel's binary64
    floats, whose subtraction, division and comparison are those of
    IEEE 754, as JavaScript's are. *)
Record World : Type := mkWorld {
  cols : Z;
  rows : Z;
  grid : Grid;
  isPlaying : bool;
  speed : Z;
  lastUpdate : float;
  randomTape : Z -> Q;
  randomCalls : Z
}.

Definition set_cols (v : Z) (w : World) : World :=
  mkWorld v (rows w) (grid w) (isPlaying w) (speed w) (lastUpdate w)
          (randomTape w) (randomCalls w).
Definition set_rows (v : Z) (w : World) : World :=
  mkWorld (cols w) v (grid w) (isPlaying w) (speed w) (lastUpdate w)
          (randomTape w) (randomCalls w).
Definition set_grid (v : Grid) (w : World) : World :=
  mkWorld (cols w) (rows w) v (isPlaying w) (speed w) (lastUpdate w)
          (randomTape w) (randomCalls w).
Definition set_isPlaying (v : bool) (w : World) : World :=
  mkWorld (cols w) (rows w) (grid w) v (speed w) (lastUpdate w)
          (randomTape w) (randomCalls w).
Definition set_speed (v : Z) (w : World) : World :=
  mkWorld (cols w) (rows w) (grid w) (isPlaying w) v (lastUpdate w)
          (randomTape w) (randomCalls w).
Definition set_lastUpdate (v : float) (w : World) : World :=
  mkWorld (cols w) (rows w) (grid w) (isPlaying w) (speed w) v
          (randomTape w) (randomCalls w).
Definition set_randomCalls (v : Z) (w : World) : World :=
  mkWorld (cols w) (rows w) (grid w) (isPlaying w) (speed w) (lastUpdate w)
          (randomTape w) v.

(** The variables as the script initialises them, for a given random
    source. *)
Definition initialWorld (tape : Z -> Q) : World :=
  mkWorld 0 0 [] false DEFAULT_SPEED 0%float tape 0.

(* ===================================================================== *)
(** ** The monad: state, exceptions and an effect trace *)
(* ===================================================================== *)

Inductive Result (A : Type) : Type :=
  | Ok (a : A)
  | Throw (e : Exn).
Arguments Ok {A} a.
Arguments Throw {A} e.

Definition M (A : Type) : Type := World -> list Event * Result (A * World).

Definition ret {A} (a : A) : M A := fun w => ([], Ok (a, w)).

Definition bind {A B} (m : M A) (f : A -> M B) : M B := fun w =>
  match m w with
  | (t1, Ok (a, w1)) =>
      match f a w1 with
      | (t2, r) => (t1 ++ t2, r)
      end
  | (t1, Throw e) => (t1, Throw e)
  end.

Definition throw {A} (e : Exn) : M A := fun _ => ([], Throw e).
Definition emit (ev : Event) : M unit := fun w => ([ev], Ok (tt, w)).
Definition gets {A} (f : World -> A) : M A := fun w => ([], Ok (f w, w)).
Definition modify (f : World -> World) : M unit := fun w => ([], Ok (tt, f w)).

Declare Scope js_scope.
Delimit Scope js_scope with js.
Notation "x <- m ;; k" := (bind m (fun x => k))
  (at level 20, m at level 99, k at level 200, only parsing) : js_scope.
Notation "m ;; k" := (bind m (fun _ => k))
  (at level 100, k at level 200, only parsing, right associativity) : js_scope.
Local Open Scope js_scope.

(** [for (let i = lo; i < hi; i++) body], for a body that assigns neither
    [i] nor anything [hi] is computed from (true of every loop in the
    script).  The variables a loop body updates that are local to the
    enclosing function are threaded through as [s]. *)
Fixpoint for_loop {S : Type} (n : nat) (i : Z) (body : Z -> S -> M S) (s : S)
  : M S :=
  match n with
  | O => ret s
  | Datatypes.S n' => s' <- body i s ;; for_loop n' (i + 1) body s'
  end.

Definition for_range {S : Type} (lo hi : Z) (body : Z -> S -> M S) (s : S)
  : M S :=
  for_loop (Z.to_nat (hi - lo)) lo body s.

(** [xs.map(f)] for a callback that may throw. *)
Fixpoint mapM {A B : Type} (f : A -> M B) (xs : list A) : M (list B) :=
  match xs with
  | [] => ret []
  | x :: xs' => y <- f x ;; ys <- mapM f xs' ;; ret (y :: ys)
  end.

(* ===================================================================== *)
(** ** Operators and array access *)
(* ===================================================================== *)

(** [a % b] on integers: the remainder takes the sign of the dividend
    (truncated division), and a zero divisor gives [NaN] without
    throwing. *)
Definition js_rem (a b : Z) : M Num :=
  emit (EvRemainder a b) ;;
  ret (if b =? 0 then NaN else Int (Z.rem a b)).

(** [a[k]]: [None] is [undefined], the value of every index that is not
    an integer within the array. *)
Definition elem {A : Type} (a : list A) (k : Num) : option A :=
  match k with
  | Int z => if 0 <=? z then a !! Z.to_nat z else None
  | NaN => None
  end.

(** [g[r][c]] as an expression: indexing [undefined] throws. *)
Definition read2 (g : Grid) (r c : Num) : M (option Z) :=
  match elem g r with
  | None => throw TypeError
  | Some line => ret (elem line c)
  end.

(** [v > 0]; [undefined > 0] is [false]. *)
Definition gt0 (v : option Z) : bool :=
  match v with
  | Some z => 0 <? z
  | None => false
  end.

(** [g[r][c] = v] on the array held in a local variable. *)
Definition write2 (g : Grid) (r c : Z) (v : Z) : M Grid :=
  match elem g (Int r) with
  | None => throw TypeError
  | Some line =>
      if (0 <=? c) && (c <? Z.of_nat (length line))
      then ret (<[Z.to_nat r := <[Z.to_nat c := v]> line]> g)
      else throw OutsideModel
  end.

(** [grid[r][c] = v] on the global. *)
Definition store2 (r c : Z) (v : Z) : M unit :=
  g <- gets grid ;;
  g' <- write2 g r c v ;;
  modify (set_grid g').

(** [Array(n).fill(x)]: [Array(n)] throws a [RangeError] unless [n] is an
    integer in [0, 2^32 - 1]. *)
Definition js_Array {A : Type} (n : Z) (x : A) : M (list A) :=
  if (0 <=? n) && (n <? 2 ^ 32)
  then ret (replicate (Z.to_nat n) x)
  else throw RangeError.

(** [Math.random()]. *)
Definition Math_random : M Q := fun w =>
  ([], Ok (randomTape w (randomCalls w),
           set_randomCalls (randomCalls w + 1) w)).

(* ===================================================================== *)
(** ** Grid management (lines 45-127) *)
(* ===================================================================== *)

(** Lines 45-47.  The callback of [map] runs once per row, so
    [Array(cols)] is not evaluated at all when [rows] is 0. *)
Definition createEmptyGrid : M Grid :=
  r <- gets rows ;;
  skeleton <- js_Array r tt ;;
  mapM (fun _ => c <- gets cols ;; js_Array c 0) skeleton.

(** Lines 61-70: the body of the inner loop of [countNeighbors], for the
    offset [(i, j)] and the running [count]. *)
Definition probeNeighbor (row col i j count : Z) : M Z :=
  if (i =? 0) && (j =? 0) then ret count
  else
    rs <- gets rows ;;
    neighborRow <- js_rem (row + i + rs) rs ;;
    cs <- gets cols ;;
    neighborCol <- js_rem (col + j + cs) cs ;;
    g <- gets grid ;;
    v <- read2 g neighborRow neighborCol ;;
    if gt0 v then ret (count + 1) else ret count.

(** Lines 56-75. *)
Definition countNeighbors (row col : Z) : M Z :=
  for_range (-1) (1 + 1) (fun i count =>
    for_range (-1) (1 + 1) (fun j count =>
      probeNeighbor row col i j count) count) 0.

(** Lines 84-102.  [newGrid] is a local variable; the global [grid] is
    only rebound by the last statement. *)
Definition computeNextGeneration : M unit :=
  newGrid0 <- createEmptyGrid ;;
  rs <- gets rows ;;
  newGrid <- for_range 0 rs (fun i newGrid =>
    cs <- gets cols ;;
    for_range 0 cs (fun j newGrid =>
      neighbors <- countNeighbors i j ;;
      g <- gets grid ;;
      v <- read2 g (Int i) (Int j) ;;
      let isAlive := gt0 v in
      if isAlive && ((neighbors =? 2) || (neighbors =? 3))
      then write2 newGrid i j neighbors
      else if negb isAlive && (neighbors =? 3)
      then write2 newGrid i j neighbors
      else ret newGrid) newGrid) newGrid0 ;;
  modify (set_grid newGrid).

(** Lines 107-116, with the constant [RANDOM_DENSITY] of line 113 as the
    parameter [density]. *)
Definition randomizeGridWith (density : Q) : M unit :=
  g0 <- createEmptyGrid ;;
  modify (set_grid g0) ;;
  rs <- gets rows ;;
  for_range 0 rs (fun i _ =>
    cs <- gets cols ;;
    for_range 0 cs (fun j _ =>
      u <- Math_random ;;
      store2 i j (if Qlt_le_dec (1 - density) u then 3 else 0)) tt) tt.

Definition randomizeGrid : M unit := randomizeGridWith RANDOM_DENSITY.

(** Lines 123-127. *)
Definition toggleCell (row col : Z) : M unit :=
  rs <- gets rows ;;
  cs <- gets cols ;;
  if (0 <=? row) && (row <? rs) && (0 <=? col) && (col <? cs)
  then
    g <- gets grid ;;
    v <- read2 g (Int row) (Int col) ;;
    store2 row col (if gt0 v then 0 else 3)
  else ret tt.

(* ===================================================================== *)
(** ** Canvas and rendering (lines 137-227) *)
(* ===================================================================== *)

(** Lines 197-200. *)
Definition getColorForNeighborCount (neighborCount : Z) : option string :=
  let colorIndex :=
    Z.min (neighborCount - 1) (Z.of_nat (length GITHUB_COLORS) - 1) in
  elem GITHUB_COLORS (Int colorIndex).

(** Lines 205-227.  [draw] assigns none of the script's variables; what it
    paints is recorded as events. *)
Definition draw : M unit :=
  emit EvClearCanvas ;;
  rs <- gets rows ;;
  for_range 0 rs (fun i _ =>
    cs <- gets cols ;;
    for_range 0 cs (fun j _ =>
      g <- gets grid ;;
      cellValue <- read2 g (Int i) (Int j) ;;
      match cellValue with
      | Some value =>
          if 0 <? value
          then emit (EvRoundedRect (j * CELL_SIZE) (i * CELL_SIZE)
                       CELL_SIZE CELL_SIZE CELL_RADIUS
                       (getColorForNeighborCount value))
          else ret tt
      | None => ret tt
      end) tt) tt.

(** [a.length] where [a] may be [undefined]. *)
Definition length_of {A : Type} (a : option (list A)) : M Z :=
  match a with
  | Some l => ret (Z.of_nat (length l))
  | None => throw TypeError
  end.

(** Lines 137-161.  [canvasWidth] and [canvasHeight] stand for the values
    of [canvas.width] and [canvas.height] after lines 139-140 (both are
    unsigned 32-bit attributes of the canvas element); [Math.floor] of an
    integer quotient by the positive [CELL_SIZE] is [Z.div]. *)
Definition resizeCanvas (canvasWidth canvasHeight : Z) : M unit :=
  let newCols := canvasWidth / CELL_SIZE in
  let newRows := canvasHeight / CELL_SIZE in
  oldGrid <- gets grid ;;
  modify (set_cols newCols) ;;
  modify (set_rows newRows) ;;
  g0 <- createEmptyGrid ;;
  modify (set_grid g0) ;;
  (if 0 <? Z.of_nat (length oldGrid)
   then
     rs <- gets rows ;;
     for_range 0 (Z.min rs (Z.of_nat (length oldGrid))) (fun i _ =>
       cs <- gets cols ;;
       width0 <- length_of (elem oldGrid (Int 0)) ;;
       for_range 0 (Z.min cs width0) (fun j _ =>
         v <- read2 oldGrid (Int i) (Int j) ;;
         match v with
         | Some z => store2 i j z
         | None => throw OutsideModel
         end) tt) tt
   else ret tt) ;;
  draw.

(* ===================================================================== *)
(** ** Animation loop (lines 238-250) *)
(* ===================================================================== *)

(** The double that an integer is as a JavaScript number: the nearest
    binary64 value, ties to even (the integer itself up to [2^53]). *)
Definition Number_of_Z (z : Z) : float :=
  FloatOps.SF2Prim
    (SpecFloat.binary_normalize FloatOps.prec FloatOps.emax z 0 false).

(** Lines 240-242: [interval = 1000 / speed] and the test
    [timestamp - lastUpdate >= interval], both computed in doubles.  For
    [speed = 0] the quotient is [Infinity]. *)
Definition intervalElapsed (timestamp lastUpd : float) (spd : Z) : bool :=
  let interval := (1000 / Number_of_Z spd)%float in
  (interval <=? timestamp - lastUpd)%float.

Definition animate (timestamp : float) : M unit :=
  playing <- gets isPlaying ;;
  (if playing
   then
     spd <- gets speed ;;
     lastUpd <- gets lastUpdate ;;
     if intervalElapsed timestamp lastUpd spd
     then
       computeNextGeneration ;;
       draw ;;
       modify (set_lastUpdate timestamp)
     else ret tt
   else ret tt) ;;
  emit EvRequestFrame.

(* ===================================================================== *)
(** ** Event handlers (lines 259-312) *)
(* ===================================================================== *)

Definition handlePlayPause : M unit :=
  playing <- gets isPlaying ;;
  modify (set_isPlaying (negb playing)).

Definition handleStep : M unit :=
  computeNextGeneration ;;
  draw.

Definition handleClear : M unit :=
  g0 <- createEmptyGrid ;;
  modify (set_grid g0) ;;
  draw.

Definition handleRandom : M unit :=
  randomizeGrid ;;
  draw.

(** [parsed] is the integer [parseInt] reads from the slider. *)
Definition handleSpeedChange (parsed : Z) : M unit :=
  modify (set_speed parsed).

(** [x] and [y] are the click position relative to the canvas. *)
Definition handleCanvasClick (x y : Q) : M unit :=
  let col := Qfloor (x / inject_Z CELL_SIZE) in
  let row := Qfloor (y / inject_Z CELL_SIZE) in
  toggleCell row col ;;
  draw.

(* ===================================================================== *)
(** ** Total correctness of a run *)
(* ===================================================================== *)

(** Total correctness: from [w] the computation returns normally, every
    effect it performs satisfies [P], and the result satisfies [Q]. *)
Definition wp {A : Type} (P : Event -> Prop) (m : M A) (w : World)
  (Q : A -> World -> Prop) : Prop :=
  exists t a w', m w = (t, Ok (a, w')) /\ Forall P t /\ Q a w'.

(** The only effect that could go wrong: a remainder by zero. *)
Definition safe_event (ev : Event) : Prop :=
  match ev with
  | EvRemainder _ divisor => divisor <> 0
  | _ => True
  end.

(* ===================================================================== *)
(** ** Grids of a given shape *)
(* ===================================================================== *)

(** [g] has [r] rows of [c] cells each. *)
Definition shaped (r c : Z) (g : Grid) : Prop :=
  Z.of_nat (length g) = r /\
  Forall (fun line => Z.of_nat (length line) = c) g.

(** The variables agree with each other: [grid] is a [rows] by [cols]
    array, and both extents are lengths an array can have. *)
Definition wf (w : World) : Prop :=
  0 <= rows w < 4294967296 /\ 0 <= cols w < 4294967296 /\
  shaped (rows w) (cols w) (grid w).

(** [g[i][j]] as a value; [None] outside the grid. *)
Definition cellAt (g : Grid) (i j : Z) : option Z :=
  match elem g (Int i) with
  | Some line => elem line (Int j)
  | None => None
  end.

(** The result of [g[i][j] = v] inside the grid. *)
Definition grid_set (g : Grid) (i j v : Z) : Grid :=
  match elem g (Int i) with
  | Some line => <[Z.to_nat i := <[Z.to_nat j := v]> line]> g
  | None => g
  end.

Definition emptyGrid (r c : Z) : Grid :=
  replicate (Z.to_nat r) (replicate (Z.to_nat c) 0).

(* ===================================================================== *)
(** ** The neighbour count of the specification *)
(* ===================================================================== *)

(** The eight offsets of the Moore neighbourhood, in the order the two
    loops of [countNeighbors] visit them. *)
Definition moore_offsets : list (Z * Z) :=
  [(-1, -1); (-1, 0); (-1, 1); (0, -1); (0, 1); (1, -1); (1, 0); (1, 1)].

(** [g[i][j] > 0]. *)
Definition alive (g : Grid) (i j : Z) : bool := gt0 (cellAt g i j).

(** The count as the specification words it: the number of offsets
    [(i, j)] of the Moore neighbourhood for which the cell at
    [((row + i + r) mod r, (col + j + c) mod c)] is positive, with the
    mathematical [mod]. *)
Definition wrappedNeighbors (r c : Z) (g : Grid) (row col : Z) : Z :=
  Z.of_nat (length (List.filter
    (fun o => alive g ((row + fst o + r) mod r) ((col + snd o + c) mod c))
    moore_offsets)).

(** What one offset adds to the count. *)
Definition offsetGain (r c : Z) (g : Grid) (row col i j : Z) : Z :=
  if (i =? 0) && (j =? 0) then 0
  else if alive g ((row + i + r) mod r) ((col + j + c) mod c) then 1 else 0.

(* ===================================================================== *)
(** ** The rule of one generation *)
(* ===================================================================== *)

(** The value lines 93-97 leave in [newGrid[i][j]] for a cell holding [v]
    with [n] live neighbours ([newGrid] starts out all zero). *)
Definition nextCell (v : option Z) (n : Z) : Z :=
  if gt0 v && ((n =? 2) || (n =? 3)) then n
  else if negb (gt0 v) && (n =? 3) then n
  else 0.

(** [g'] is the generation after [g] on an [r] by [c] torus. *)
Definition nextGeneration (r c : Z) (g g' : Grid) : Prop :=
  shaped r c g' /\
  forall i j, 0 <= i < r -> 0 <= j < c ->
    cellAt g' i j = Some (nextCell (cellAt g i j) (wrappedNeighbors r c g i j)).

(* ===================================================================== *)
(** ** What toggling, randomising and resizing leave in the grid *)
(* ===================================================================== *)

(** The value [toggleCell] writes over a cell holding [v]. *)
Definition toggled (v : option Z) : Z := if gt0 v then 0 else 3.

(** The cell value line 113 computes from one draw [u]. *)
Definition drawnCell (density u : Q) : Z :=
  if Qlt_le_dec (1 - density) u then 3 else 0.

(** [g'] is the grid [randomizeGridWith density] builds when the calls of
    [Math.random()] it makes return [tape first], [tape (first + 1)], ...:
    cell [(i, j)] is decided by the draw numbered [i * c + j]. *)
Definition randomized (density : Q) (tape : Z -> Q) (first r c : Z)
    (g' : Grid) : Prop :=
  shaped r c g' /\
  forall i j, 0 <= i < r -> 0 <= j < c ->
    cellAt g' i j = Some (drawnCell density (tape (first + i * c + j))).

(** [g'] is what resizing leaves of [old] (an [oldR] by [oldC] grid) in a
    [newR] by [newC] grid, as the specification words it: the cells of the
    overlap are copied, all others are dead. *)
Definition resized (oldR oldC newR newC : Z) (old g' : Grid) : Prop :=
  shaped newR newC g' /\
  forall i j, 0 <= i < newR -> 0 <= j < newC ->
    cellAt g' i j =
    if (i <? Z.min oldR newR) && (j <? Z.min oldC newC)
    then cellAt old i j else Some 0.

(* ===================================================================== *)
(** ** Cell values *)
(* ===================================================================== *)

(** Every cell holds a number that is not negative. *)
Definition cells_nonneg (g : Grid) : Prop :=
  Forall (Forall (fun v => 0 <= v)) g.

(* ===================================================================== *)
(** ** Reachable states *)
(* ===================================================================== *)

(** What the browser can ask of the script: the events the listeners of
    lines 317-323 are registered for, an animation frame, and, so that the
    engine's operations can also be taken on their own, a bare generation
    step, toggle and randomisation. *)
Inductive Action : Type :=
  | ActResize (canvasWidth canvasHeight : Z)
  | ActFrame (timestamp : float)
  | ActPlayPause
  | ActStep
  | ActClear
  | ActRandom
  | ActSpeed (parsed : Z)
  | ActClick (x y : Q)
  | ActGeneration
  | ActToggle (row col : Z)
  | ActRandomize.

Definition perform (a : Action) : M unit :=
  match a with
  | ActResize canvasWidth canvasHeight => resizeCanvas canvasWidth canvasHeight
  | ActFrame timestamp => animate timestamp
  | ActPlayPause => handlePlayPause
  | ActStep => handleStep
  | ActClear => handleClear
  | ActRandom => handleRandom
  | ActSpeed parsed => handleSpeedChange parsed
  | ActClick x y => handleCanvasClick x y
  | ActGeneration => computeNextGeneration
  | ActToggle row col => toggleCell row col
  | ActRandomize => randomizeGrid
  end.

(** The canvas reports its width and height as unsigned 32-bit numbers. *)
Definition admissible (a : Action) : Prop :=
  match a with
  | ActResize canvasWidth canvasHeight =>
      0 <= canvasWidth < 4294967296 /\ 0 <= canvasHeight < 4294967296
  | _ => True
  end.

Inductive reachable : World -> Prop :=
  | reach_init tape : reachable (initialWorld tape)
  | reach_step w a t w' :
      reachable w -> admissible a -> perform a w = (t, Ok (tt, w')) ->
      reachable w'.

(** Every cell holds 0, 2 or 3. *)
Definition cells_023 (g : Grid) : Prop :=
  forall i j v, cellAt g i j = Some v -> v = 0 \/ v = 2 \/ v = 3.

Definition healthy (w : World) : Prop := wf w /\ cells_023 (grid w).

(* ===================================================================== *)
(** ** The blinker *)
(* ===================================================================== *)

(** A row of three live cells centred at [(r, c)] on a torus with [m]
    columns, holding [a], [b], [d] from left to right, and the column of
    three through [(r, c)] on a torus with [n] rows, holding them from top
    to bottom; every other cell is dead.  The outer cells are the
    neighbours of the centre on the torus, so the row or column may cross
    the border of the grid. *)
Definition hBlinker (m r c a b d : Z) (i j : Z) : Z :=
  if i =? r then
    if j =? (c - 1) mod m then a
    else if j =? c then b
    else if j =? (c + 1) mod m then d
    else 0
  else 0.

Definition vBlinker (n r c a b d : Z) (i j : Z) : Z :=
  if j =? c then
    if i =? (r - 1) mod n then a
    else if i =? r then b
    else if i =? (r + 1) mod n then d
    else 0
  else 0.

(** [g] is the [n] by [m] grid whose cell [(i, j)] holds [f i j]. *)
Definition depicts (n m : Z) (g : Grid) (f : Z -> Z -> Z) : Prop :=
  shaped n m g /\
  forall i j, 0 <= i < n -> 0 <= j < m -> cellAt g i j = Some (f i j).

(* ===================================================================== *)
(** ** Concrete states *)
(* ===================================================================== *)

(** A random source that returns 0 at every call, and a one-cell world
    that draws from it. *)
Definition zeroDraws : Z -> Q := fun _ => 0%Q.

Definition oneCellWorld : World :=
  mkWorld 1 1 [[0]] false DEFAULT_SPEED 0%float zeroDraws 0.

(** The empty 5 by 5 grid on which the user clicks the three cells of a
    horizontal blinker. *)
Definition emptyFive : World :=
  mkWorld 5 5 (emptyGrid 5 5) false DEFAULT_SPEED 0%float zeroDraws 0.

Definition clickedBlinker : World :=
  mkWorld 5 5
    [[0; 0; 0; 0; 0]; [0; 0; 0; 0; 0]; [0; 3; 3; 3; 0];
     [0; 0; 0; 0; 0]; [0; 0; 0; 0; 0]]
    false DEFAULT_SPEED 0%float zeroDraws 0.

(** The same state with the animation running. *)
Definition playingBlinker : World := set_isPlaying true clickedBlinker.

(** The running blinker at three generations per second. *)
Definition pacedBlinker : World := set_speed 3 playingBlinker.

(** A one-cell world whose cell is alive, and a 5 by 5 world whose only
    live cell is the corner [(0, 0)]. *)
Definition liveCellWorld : World :=
  mkWorld 1 1 [[3]] false DEFAULT_SPEED 0%float zeroDraws 0.

Definition cornerWorld : World :=
  mkWorld 5 5
    [[3; 0; 0; 0; 0]; [0; 0; 0; 0; 0]; [0; 0; 0; 0; 0];
     [0; 0; 0; 0; 0]; [0; 0; 0; 0; 0]]
    false DEFAULT_SPEED 0%float zeroDraws 0.

(** A random source whose draws alternate between 0.9 and 0.1, and a
    2 by 3 world that draws from it. *)
Definition mixedDraws : Z -> Q :=
  fun k => if Z.even k then 9 # 10 else 1 # 10.

Definition drawingWorld : World :=
  mkWorld 3 2 [[0; 3; 0]; [3; 0; 0]] false DEFAULT_SPEED 0%float
    mixedDraws 0.

(* ===================================================================== *)
(** ** Vocabulary of the further properties *)
(* ===================================================================== *)

(** Every effect [m] performs satisfies [P], in whatever state it is run
    and whether it returns or throws. *)
Definition emits {A : Type} (P : Event -> Prop) (m : M A) : Prop :=
  forall w, Forall P (fst (m w)).

Definition isRemainder (ev : Event) : Prop :=
  match ev with
  | EvRemainder _ _ => True
  | _ => False
  end.

Definition isPainting (ev : Event) : Prop :=
  match ev with
  | EvClearCanvas => True
  | EvRoundedRect _ _ _ _ _ _ => True
  | _ => False
  end.

(** The indices a loop [for (let i = lo; i < hi; i++)] goes through. *)
Fixpoint indicesFrom (n : nat) (lo : Z) : list Z :=
  match n with
  | O => []
  | Datatypes.S n' => lo :: indicesFrom n' (lo + 1)
  end.

Definition indices (lo hi : Z) : list Z := indicesFrom (Z.to_nat (hi - lo)) lo.

(** What [draw] paints for the cell [(i, j)] holding [v]: one rounded
    square at the cell's place when the cell is alive, nothing otherwise. *)
Definition cellPaint (i j : Z) (v : option Z) : list Event :=
  match v with
  | Some value =>
      if 0 <? value
      then [EvRoundedRect (j * CELL_SIZE) (i * CELL_SIZE) CELL_SIZE CELL_SIZE
              CELL_RADIUS (getColorForNeighborCount value)]
      else []
  | None => []
  end.

(** The painting of a whole grid, row by row. *)
Definition rowPaints (g : Grid) (cs i : Z) : list Event :=
  flat_map (fun j => cellPaint i j (cellAt g i j)) (indices 0 cs).

Definition gridPaints (g : Grid) (rs cs : Z) : list Event :=
  flat_map (rowPaints g cs) (indices 0 rs).

(** A browser session: the handlers run one after the other. *)
Fixpoint session (acts : list Action) : M unit :=
  match acts with
  | [] => ret tt
  | a :: rest => perform a ;; session rest
  end.

(** A grid with one live cell, and a two by two block of live cells whose
    upper left corner is [(r, c)] on an [n] by [m] torus. *)
Definition loneCell (r c a : Z) (i j : Z) : Z :=
  if (i =? r) && (j =? c) then a else 0.

Definition block (n m r c a b d e : Z) (i j : Z) : Z :=
  if i =? r then
    if j =? c then a else if j =? (c + 1) mod m then b else 0
  else if i =? (r + 1) mod n then
    if j =? c then d else if j =? (c + 1) mod m then e else 0
  else 0.

Definition allDead (i j : Z) : Z := 0.

(** Concrete states for the further properties: three rows without
    columns, a lone live cell in a 3 by 3 grid and in a single row of four,
    and a block in a 4 by 4 grid. *)
Definition threeEmptyRows : World :=
  mkWorld 0 3 [[]; []; []] false DEFAULT_SPEED 0%float zeroDraws 0.

Definition loneCellWorld : World :=
  mkWorld 3 3 [[0; 0; 0]; [0; 3; 0]; [0; 0; 0]]
    false DEFAULT_SPEED 0%float zeroDraws 0.

Definition oneRowWorld : World :=
  mkWorld 4 1 [[0; 3; 0; 0]] false DEFAULT_SPEED 0%float zeroDraws 0.

Definition blockWorld : World :=
  mkWorld 4 4 [[3; 3; 0; 0]; [3; 3; 0; 0]; [0; 0; 0; 0]; [0; 0; 0; 0]]
    false DEFAULT_SPEED 0%float zeroDraws 0.

(* ===================================================================== *)
(** ** Tactics *)
(* ===================================================================== *)

(** Decide the integer comparisons in the goal, leaving the cases that
    arithmetic cannot exclude. *)
Ltac zcases :=
  repeat match goal with
         | |- context [Z.eqb ?a ?b] => destruct (Z.eqb_spec a b)
         | |- context [Z.ltb ?a ?b] => destruct (Z.ltb_spec a b)
         | |- context [Z.leb ?a ?b] => destruct (Z.leb_spec a b)
         end;
  cbn [andb orb negb]; try reflexivity; try lia.

(** Case analysis on integer tests that drops impossible cases at once. *)
Ltac zprune :=
  repeat match goal with
         | |- context [Z.eqb ?a ?b] => destruct (Z.eqb_spec a b); try lia
         | |- context [Z.ltb ?a ?b] => destruct (Z.ltb_spec a b); try lia
         | |- context [Z.leb ?a ?b] => destruct (Z.leb_spec a b); try lia
         end.

(** One step of [zprune], simplifying after the case so that tests in
    branches that are not taken disappear; [zprune_on x], below, first
    settles the comparisons with [x]. *)
Ltac zprune_step :=
  match goal with
  | |- context [Z.eqb ?a ?b] => destruct (Z.eqb_spec a b); try lia
  | |- context [Z.ltb ?a ?b] => destruct (Z.ltb_spec a b); try lia
  | |- context [Z.leb ?a ?b] => destruct (Z.leb_spec a b); try lia
  end;
  cbn [Z.b2z andb orb negb].

(** Settle one given test, or every comparison with [x], if the goal
    contains it. *)
Ltac settle_ltb a b :=
  try match goal with
      | |- context [Z.ltb a b] =>
          destruct (Z.ltb_spec a b); try lia; cbv beta iota
      end.

Ltac settle_leb a b :=
  try match goal with
      | |- context [Z.leb a b] =>
          destruct (Z.leb_spec a b); try lia; cbv beta iota
      end.

Ltac settle_eqb a b :=
  try match goal with
      | |- context [Z.eqb a b] =>
          destruct (Z.eqb_spec a b); try lia; cbv beta iota
      end.

Ltac settle_all_eqb x :=
  repeat (match goal with
          | |- context [Z.eqb ?a x] => destruct (Z.eqb_spec a x); try lia
          end;
          cbn [Z.b2z andb orb negb]).

Ltac zprune_on x := settle_all_eqb x; repeat zprune_step.

(** Two states built from the same one by assignments are equal when the
    assigned values are. *)
Ltac world_eq :=
  unfold set_cols, set_rows, set_grid, set_isPlaying, set_speed,
    set_lastUpdate, set_randomCalls;
  cbn [cols rows grid isPlaying speed lastUpdate randomTape randomCalls];
  f_equal; try lia.

(* ===================================================================== *)
(** ** Proof rules for runs *)
(* ===================================================================== *)

Section Rules.
Context {A B : Type} (P : Event -> Prop).

Lemma wp_ret (a : A) w (Q : A -> World -> Prop) :
  Q a w -> wp P (ret a) w Q.
Proof. intros HQ. exists [], a, w. repeat split; auto. Qed.

Lemma wp_bind (m : M A) (f : A -> M B) w (Q : B -> World -> Prop) :
  wp P m w (fun a w1 => wp P (f a) w1 Q) -> wp P (bind m f) w Q.
Proof.
  intros (t1 & a & w1 & Hm & Ht1 & (t2 & b & w2 & Hf & Ht2 & HQ)).
  exists (t1 ++ t2), b, w2. unfold bind. rewrite Hm, Hf.
  repeat split; auto. apply Forall_app; auto.
Qed.

Lemma wp_gets (f : World -> A) w (Q : A -> World -> Prop) :
  Q (f w) w -> wp P (gets f) w Q.
Proof. intros HQ. exists [], (f w), w. repeat split; auto. Qed.

Lemma wp_conseq (m : M A) w (Q Q' : A -> World -> Prop) :
  wp P m w Q -> (forall a w', Q a w' -> Q' a w') -> wp P m w Q'.
Proof.
  intros (t & a & w' & Hm & Ht & HQ) Himp. exists t, a, w'. auto.
Qed.

Lemma wp_weaken (P' : Event -> Prop) (m : M A) w (Q : A -> World -> Prop) :
  (forall ev, P ev -> P' ev) -> wp P m w Q -> wp P' m w Q.
Proof.
  intros HP (t & a & w' & Hm & Ht & HQ). exists t, a, w'.
  repeat split; auto. eapply Forall_impl; eauto.
Qed.
End Rules.

Lemma wp_modify P (f : World -> World) w (Q : unit -> World -> Prop) :
  Q tt (f w) -> wp P (modify f) w Q.
Proof. intros HQ. exists [], tt, (f w). repeat split; auto. Qed.

Lemma wp_emit (P : Event -> Prop) ev w (Q : unit -> World -> Prop) :
  P ev -> Q tt w -> wp P (emit ev) w Q.
Proof. intros HP HQ. exists [ev], tt, w. repeat split; auto. Qed.

(** The loop rule: [I i s w] is the invariant before the iteration with
    index [i]. *)
Lemma wp_for_loop {S : Type} P (I : Z -> S -> World -> Prop)
    (body : Z -> S -> M S) (n : nat) :
  forall lo s w,
    I lo s w ->
    (forall i s1 w1, lo <= i < lo + Z.of_nat n -> I i s1 w1 ->
       wp P (body i s1) w1 (I (i + 1))) ->
    wp P (for_loop n lo body s) w (I (lo + Z.of_nat n)).
Proof.
  induction n as [|n IH]; intros lo s w Hinit Hstep.
  - cbn [for_loop]. apply wp_ret. now rewrite Z.add_0_r.
  - cbn [for_loop]. apply wp_bind.
    eapply wp_conseq; [apply Hstep; [lia | exact Hinit] |].
    intros s1 w1 H1. cbv beta.
    replace (lo + Z.of_nat (Datatypes.S n)) with ((lo + 1) + Z.of_nat n) by lia.
    apply IH; [exact H1 |]. intros i s2 w2 Hi. apply Hstep. lia.
Qed.

Lemma wp_for_range {S : Type} P (I : Z -> S -> World -> Prop)
    (body : Z -> S -> M S) lo hi s w (Q : S -> World -> Prop) :
  lo <= hi ->
  I lo s w ->
  (forall i s1 w1, lo <= i < hi -> I i s1 w1 ->
     wp P (body i s1) w1 (I (i + 1))) ->
  (forall s1 w1, I hi s1 w1 -> Q s1 w1) ->
  wp P (for_range lo hi body s) w Q.
Proof.
  intros Hle Hinit Hstep Hpost. unfold for_range.
  eapply wp_conseq.
  - apply (wp_for_loop P I); [exact Hinit |].
    intros i s1 w1 Hi. apply Hstep. lia.
  - intros s1 w1 H1. apply Hpost.
    now replace hi with (lo + Z.of_nat (Z.to_nat (hi - lo))) by lia.
Qed.

(* ===================================================================== *)
(** ** Lemmas on the shape and the cells of a grid *)
(* ===================================================================== *)

Lemma elem_Int {A : Type} (a : list A) (i : Z) :
  0 <= i -> elem a (Int i) = a !! Z.to_nat i.
Proof. intros H. cbn. destruct (Z.leb_spec 0 i); [reflexivity | lia]. Qed.

Lemma elem_within {A : Type} (a : list A) (i : Z) :
  0 <= i < Z.of_nat (length a) -> exists x, elem a (Int i) = Some x.
Proof.
  intros H. rewrite elem_Int by lia.
  destruct (lookup_lt_is_Some_2 a (Z.to_nat i)) as [x Hx]; [lia | eauto].
Qed.

Lemma elem_outside {A : Type} (a : list A) (i : Z) :
  i < 0 \/ Z.of_nat (length a) <= i -> elem a (Int i) = None.
Proof.
  intros H. cbn. destruct (Z.leb_spec 0 i); [| reflexivity].
  apply lookup_ge_None. lia.
Qed.

Lemma shaped_line r c g i line :
  shaped r c g -> elem g (Int i) = Some line -> Z.of_nat (length line) = c.
Proof.
  intros [_ Hall] He. cbn in He. destruct (0 <=? i); [| discriminate].
  rewrite Forall_lookup in Hall. exact (Hall _ _ He).
Qed.

Lemma shaped_row r c g i :
  shaped r c g -> 0 <= i < r ->
  exists line, elem g (Int i) = Some line /\ Z.of_nat (length line) = c.
Proof.
  intros Hs Hi. destruct (elem_within g i) as [line Hl]; [destruct Hs; lia |].
  exists line. split; [exact Hl | eapply shaped_line; eauto].
Qed.

Lemma shaped_cell r c g i j :
  shaped r c g -> 0 <= i < r -> 0 <= j < c ->
  exists v, cellAt g i j = Some v.
Proof.
  intros Hs Hi Hj. destruct (shaped_row r c g i Hs Hi) as (line & Hl & Hlen).
  unfold cellAt. rewrite Hl. apply elem_within. lia.
Qed.

Lemma cellAt_outside r c g i j :
  shaped r c g -> ~ (0 <= i < r /\ 0 <= j < c) -> cellAt g i j = None.
Proof.
  intros Hs Hout. unfold cellAt.
  destruct (elem g (Int i)) as [line|] eqn:Hl; [| reflexivity].
  pose proof (shaped_line _ _ _ _ _ Hs Hl) as Hlen.
  apply elem_outside.
  destruct (Z_lt_dec j 0); [lia |].
  destruct (Z_le_dec (Z.of_nat (length line)) j); [lia |].
  exfalso. apply Hout. split; [| lia].
  destruct Hs as [Hr _].
  destruct (Z_lt_dec i 0) as [Hneg|Hpos].
  - rewrite elem_outside in Hl by lia. discriminate.
  - destruct (Z_le_dec r i) as [Hge|Hlt]; [| lia].
    rewrite elem_outside in Hl by lia. discriminate.
Qed.

Lemma shaped_emptyGrid r c : 0 <= r -> 0 <= c -> shaped r c (emptyGrid r c).
Proof.
  intros Hr Hc. unfold shaped, emptyGrid. split.
  - rewrite length_replicate. lia.
  - apply Forall_replicate. rewrite length_replicate. lia.
Qed.

Lemma cellAt_emptyGrid r c i j :
  0 <= i < r -> 0 <= j < c -> cellAt (emptyGrid r c) i j = Some 0.
Proof.
  intros Hi Hj. unfold cellAt, emptyGrid.
  rewrite !elem_Int by lia. rewrite lookup_replicate_2 by lia.
  rewrite elem_Int by lia. apply lookup_replicate_2. lia.
Qed.

Lemma shaped_grid_set r c g i j v :
  shaped r c g -> shaped r c (grid_set g i j v).
Proof.
  intros Hs. unfold grid_set.
  destruct (elem g (Int i)) as [line|] eqn:Hl; [| exact Hs].
  pose proof (shaped_line _ _ _ _ _ Hs Hl) as Hlen.
  destruct Hs as [Hr Hall]. split.
  - rewrite length_insert. exact Hr.
  - apply Forall_insert; [exact Hall |]. cbv beta.
    rewrite length_insert. exact Hlen.
Qed.

Lemma cellAt_grid_set r c g i j v i' j' :
  shaped r c g -> 0 <= i < r -> 0 <= j < c ->
  cellAt (grid_set g i j v) i' j' =
  if (i' =? i) && (j' =? j) then Some v else cellAt g i' j'.
Proof.
  intros Hs Hi Hj.
  destruct (shaped_row r c g i Hs Hi) as (line & Hl & Hlen).
  unfold grid_set, cellAt. rewrite Hl.
  destruct (Z_lt_dec i' 0) as [Hneg|Hi'].
  { rewrite !(elem_outside _ i') by lia.
    destruct (Z.eqb_spec i' i); [lia | reflexivity]. }
  rewrite elem_Int in Hl by lia.
  rewrite !(elem_Int _ i') by lia.
  destruct (Z.eqb_spec i' i) as [->|Hne]; cbn [andb].
  - rewrite list_lookup_insert_eq by (destruct Hs; lia).
    rewrite Hl.
    destruct (Z_lt_dec j' 0) as [Hnegj|Hj'].
    { rewrite !(elem_outside _ j') by lia.
      destruct (Z.eqb_spec j' j); [lia | reflexivity]. }
    rewrite !elem_Int by lia.
    destruct (Z.eqb_spec j' j) as [->|Hnej].
    + apply list_lookup_insert_eq. lia.
    + apply list_lookup_insert_ne. lia.
  - rewrite list_lookup_insert_ne by lia. reflexivity.
Qed.

(** Two grids of the same shape with the same cells are the same grid. *)
Lemma grid_ext r c g1 g2 :
  shaped r c g1 -> shaped r c g2 ->
  (forall i j, 0 <= i < r -> 0 <= j < c -> cellAt g1 i j = cellAt g2 i j) ->
  g1 = g2.
Proof.
  intros H1 H2 Hcells. apply list_eq. intros n.
  destruct (Z_lt_dec (Z.of_nat n) r) as [Hn|Hn].
  - destruct (shaped_row r c g1 (Z.of_nat n) H1) as (l1 & Hl1 & Hlen1); [lia |].
    destruct (shaped_row r c g2 (Z.of_nat n) H2) as (l2 & Hl2 & Hlen2); [lia |].
    pose proof Hl1 as Hl1'. pose proof Hl2 as Hl2'.
    rewrite elem_Int, Nat2Z.id in Hl1', Hl2' by lia.
    rewrite Hl1', Hl2'. f_equal. apply list_eq. intros m.
    destruct (Z_lt_dec (Z.of_nat m) c) as [Hm|Hm].
    + specialize (Hcells (Z.of_nat n) (Z.of_nat m) ltac:(lia) ltac:(lia)).
      unfold cellAt in Hcells. rewrite Hl1, Hl2 in Hcells.
      rewrite !elem_Int, !Nat2Z.id in Hcells by lia. exact Hcells.
    + rewrite !(proj2 (lookup_ge_None _ _)) by lia. reflexivity.
  - destruct H1 as [Hr1 _], H2 as [Hr2 _].
    rewrite !(proj2 (lookup_ge_None _ _)) by lia. reflexivity.
Qed.

Lemma wp_read2 P g i j r c w (Q : option Z -> World -> Prop) :
  shaped r c g -> 0 <= i < r ->
  Q (cellAt g i j) w -> wp P (read2 g (Int i) (Int j)) w Q.
Proof.
  intros Hs Hi HQ. destruct (shaped_row r c g i Hs Hi) as (line & Hl & _).
  unfold read2. unfold cellAt in HQ. rewrite Hl in *. now apply wp_ret.
Qed.

Lemma wp_write2 P g i j v r c w (Q : Grid -> World -> Prop) :
  shaped r c g -> 0 <= i < r -> 0 <= j < c ->
  Q (grid_set g i j v) w -> wp P (write2 g i j v) w Q.
Proof.
  intros Hs Hi Hj HQ.
  destruct (shaped_row r c g i Hs Hi) as (line & Hl & Hlen).
  unfold write2. unfold grid_set in HQ. rewrite Hl in *.
  destruct (Z.leb_spec 0 j); [| lia].
  destruct (Z.ltb_spec j (Z.of_nat (length line))); [| lia].
  now apply wp_ret.
Qed.

Lemma wp_store2 P i j v w (Q : unit -> World -> Prop) :
  shaped (rows w) (cols w) (grid w) -> 0 <= i < rows w -> 0 <= j < cols w ->
  Q tt (set_grid (grid_set (grid w) i j v) w) -> wp P (store2 i j v) w Q.
Proof.
  intros Hs Hi Hj HQ. unfold store2.
  apply wp_bind, wp_gets. apply wp_bind.
  eapply wp_write2; eauto. now apply wp_modify.
Qed.

Lemma wp_js_Array {A : Type} P n (x : A) w (Q : list A -> World -> Prop) :
  0 <= n < 4294967296 ->
  Q (replicate (Z.to_nat n) x) w -> wp P (js_Array n x) w Q.
Proof.
  intros Hn HQ. unfold js_Array.
  destruct (Z.leb_spec 0 n); [| lia].
  destruct (Z.ltb_spec n (2 ^ 32)); [| lia].
  now apply wp_ret.
Qed.

Lemma wp_createEmptyGrid P w (Q : Grid -> World -> Prop) :
  0 <= rows w < 4294967296 -> 0 <= cols w < 4294967296 ->
  Q (emptyGrid (rows w) (cols w)) w -> wp P createEmptyGrid w Q.
Proof.
  intros Hr Hc HQ. unfold createEmptyGrid.
  apply wp_bind, wp_gets. apply wp_bind. apply wp_js_Array; [exact Hr |].
  unfold emptyGrid in HQ. revert HQ.
  generalize (Z.to_nat (rows w)) as n. intros n. revert Q.
  induction n as [|n IH]; intros Q HQ; cbn [replicate mapM].
  - now apply wp_ret.
  - apply wp_bind. apply wp_bind, wp_gets. apply wp_js_Array; [exact Hc |].
    apply wp_bind. apply IH. now apply wp_ret.
Qed.

(* ===================================================================== *)
(** ** Lemmas on neighbour counting *)
(* ===================================================================== *)

Lemma wrappedNeighbors_bounds r c g row col :
  0 <= wrappedNeighbors r c g row col <= 8.
Proof.
  unfold wrappedNeighbors.
  pose proof (List.filter_length_le
    (fun o => alive g ((row + fst o + r) mod r) ((col + snd o + c) mod c))
    moore_offsets) as H.
  cbn [length moore_offsets] in H. lia.
Qed.

Lemma wp_js_rem (P : Event -> Prop) a b w (Q : Num -> World -> Prop) :
  P (EvRemainder a b) -> 0 <= a -> 0 < b ->
  Q (Int (a mod b)) w -> wp P (js_rem a b) w Q.
Proof.
  intros HP Ha Hb HQ. unfold js_rem.
  apply wp_bind, wp_emit; [exact HP |]. apply wp_ret.
  destruct (Z.eqb_spec b 0); [lia |].
  now rewrite Z.rem_mod_nonneg by lia.
Qed.

Lemma wp_probeNeighbor w row col i j count (Q : Z -> World -> Prop) :
  wf w -> 0 < rows w -> 0 < cols w ->
  0 <= row < rows w -> 0 <= col < cols w ->
  -1 <= i <= 1 -> -1 <= j <= 1 ->
  Q (count + offsetGain (rows w) (cols w) (grid w) row col i j) w ->
  wp safe_event (probeNeighbor row col i j count) w Q.
Proof.
  intros (Hr & Hc & Hs) Hr0 Hc0 Hrow Hcol Hi Hj HQ.
  unfold probeNeighbor. unfold offsetGain in HQ.
  destruct ((i =? 0) && (j =? 0)).
  { apply wp_ret. now rewrite Z.add_0_r in HQ. }
  apply wp_bind, wp_gets. apply wp_bind.
  apply wp_js_rem; [cbn; lia | lia | lia |].
  apply wp_bind, wp_gets. apply wp_bind.
  apply wp_js_rem; [cbn; lia | lia | lia |].
  apply wp_bind, wp_gets. apply wp_bind.
  pose proof (Z.mod_pos_bound (row + i + rows w) (rows w) Hr0).
  eapply wp_read2; [exact Hs | lia |].
  unfold alive in HQ.
  destruct (gt0 _); apply wp_ret; [exact HQ |].
  now rewrite Z.add_0_r in HQ.
Qed.

(** On a well-formed state with a cell to look at, [countNeighbors]
    returns the wrapped Moore count, changes no variable, and never
    divides by zero. *)
Lemma wp_countNeighbors w row col (Q : Z -> World -> Prop) :
  wf w -> 0 <= row < rows w -> 0 <= col < cols w ->
  Q (wrappedNeighbors (rows w) (cols w) (grid w) row col) w ->
  wp safe_event (countNeighbors row col) w Q.
Proof.
  intros Hwf Hrow Hcol HQ.
  assert (Hr0 : 0 < rows w) by lia. assert (Hc0 : 0 < cols w) by lia.
  unfold countNeighbors, for_range.
  change (Z.to_nat (1 + 1 - -1)) with 3%nat. cbn [for_loop].
  repeat (cbv beta;
          first [ apply wp_probeNeighbor; [assumption .. | lia | lia |]
                | apply wp_ret
                | apply wp_bind ]).
  unfold offsetGain.
  change (-1 + 1 + 1) with 1. change (-1 + 1) with 0. cbn [Z.eqb andb].
  unfold wrappedNeighbors in HQ. cbn [moore_offsets List.filter fst snd] in HQ.
  revert HQ.
  repeat match goal with
         | |- context [alive ?g ?x ?y] =>
             let b := fresh "b" in
             generalize (alive g x y); intros b
         end.
  intros HQ.
  repeat match goal with b : bool |- _ => destruct b end; exact HQ.
Qed.

(* ===================================================================== *)
(** ** Lemmas on one generation *)
(* ===================================================================== *)

Lemma wp_computeNextGeneration w (Q : unit -> World -> Prop) :
  wf w ->
  (forall g', nextGeneration (rows w) (cols w) (grid w) g' ->
              Q tt (set_grid g' w)) ->
  wp safe_event computeNextGeneration w Q.
Proof.
  intros Hwf HQ. pose proof Hwf as (Hr & Hc & Hs).
  set (F := fun i j => nextCell (cellAt (grid w) i j)
                         (wrappedNeighbors (rows w) (cols w) (grid w) i j)).
  unfold computeNextGeneration.
  apply wp_bind, wp_createEmptyGrid; [exact Hr | exact Hc |].
  apply wp_bind, wp_gets. apply wp_bind.
  apply wp_for_range with
    (I := fun i ng w1 =>
       w1 = w /\ shaped (rows w) (cols w) ng /\
       forall i' j', 0 <= i' < rows w -> 0 <= j' < cols w ->
         cellAt ng i' j' = Some (if i' <? i then F i' j' else 0)).
  - lia.
  - split; [reflexivity |]. split; [apply shaped_emptyGrid; lia |].
    intros i' j' Hi' Hj'. rewrite cellAt_emptyGrid by lia. zcases.
  - intros i ng w1 Hi (-> & Hng & Hcells).
    apply wp_bind, wp_gets.
    apply wp_for_range with
      (I := fun j ng' w1 =>
         w1 = w /\ shaped (rows w) (cols w) ng' /\
         forall i' j', 0 <= i' < rows w -> 0 <= j' < cols w ->
           cellAt ng' i' j' =
           Some (if (i' <? i) || ((i' =? i) && (j' <? j))
                 then F i' j' else 0)).
    + lia.
    + split; [reflexivity |]. split; [exact Hng |].
      intros i' j' Hi' Hj'. rewrite Hcells by lia. zcases.
    + intros j ng' w1 Hj (-> & Hng' & Hcells').
      apply wp_bind, wp_countNeighbors; [exact Hwf | lia | lia |].
      apply wp_bind, wp_gets. apply wp_bind.
      eapply wp_read2; [exact Hs | lia |].
      assert (Hkeep : forall v,
        v = F i j ->
        w = w /\ shaped (rows w) (cols w) (grid_set ng' i j v) /\
        forall i' j', 0 <= i' < rows w -> 0 <= j' < cols w ->
          cellAt (grid_set ng' i j v) i' j' =
          Some (if (i' <? i) || ((i' =? i) && (j' <? j + 1))
                then F i' j' else 0)).
      { intros v ->. split; [reflexivity |].
        split; [now apply shaped_grid_set |].
        intros i' j' Hi' Hj'.
        rewrite (cellAt_grid_set (rows w) (cols w)) by (assumption || lia).
        destruct (Z.eqb_spec i' i) as [->|Hne];
          destruct (Z.eqb_spec j' j) as [->|Hnej]; cbn [andb].
        - zcases.
        - rewrite Hcells' by lia. zcases.
        - rewrite Hcells' by lia. zcases.
        - rewrite Hcells' by lia. zcases. }
      assert (Hskip : 0 = F i j ->
        w = w /\ shaped (rows w) (cols w) ng' /\
        forall i' j', 0 <= i' < rows w -> 0 <= j' < cols w ->
          cellAt ng' i' j' =
          Some (if (i' <? i) || ((i' =? i) && (j' <? j + 1))
                then F i' j' else 0)).
      { intros HF. split; [reflexivity |]. split; [exact Hng' |].
        intros i' j' Hi' Hj'. rewrite Hcells' by lia.
        destruct (Z.eqb_spec i' i) as [->|Hne];
          destruct (Z.eqb_spec j' j) as [->|Hnej]; cbn [andb].
        - rewrite <- HF. zcases.
        - zcases.
        - zcases.
        - zcases. }
      unfold F, nextCell in Hkeep, Hskip.
      destruct (gt0 (cellAt (grid w) i j) && _) eqn:Hsurvive.
      * eapply wp_write2; [exact Hng' | lia | lia |]. now apply Hkeep.
      * destruct (negb (gt0 (cellAt (grid w) i j)) && _) eqn:Hborn.
        -- eapply wp_write2; [exact Hng' | lia | lia |]. now apply Hkeep.
        -- apply wp_ret. now apply Hskip.
    + intros ng' w1 (-> & Hng' & Hcells'). split; [reflexivity |].
      split; [exact Hng' |].
      intros i' j' Hi' Hj'. rewrite Hcells' by lia. zcases.
  - intros ng w1 (-> & Hng & Hcells). apply wp_modify. apply HQ.
    split; [exact Hng |]. intros i j Hi Hj. rewrite Hcells by lia.
    fold (F i j). zcases.
Qed.

(* ===================================================================== *)
(** ** Lemmas on painting, toggling, randomising and resizing *)
(* ===================================================================== *)

Lemma wp_draw w (Q : unit -> World -> Prop) :
  wf w -> Q tt w -> wp safe_event draw w Q.
Proof.
  intros (Hr & Hc & Hs) HQ. unfold draw.
  apply wp_bind, wp_emit; [exact I |].
  apply wp_bind, wp_gets.
  apply wp_for_range with (I := fun _ _ w1 => w1 = w); [lia | reflexivity | |].
  - intros i [] w1 Hi ->. apply wp_bind, wp_gets.
    apply wp_for_range with (I := fun _ _ w1 => w1 = w);
      [lia | reflexivity | | auto].
    intros j [] w1 Hj ->. apply wp_bind, wp_gets. apply wp_bind.
    eapply wp_read2; [exact Hs | lia |].
    destruct (cellAt (grid w) i j) as [value|]; [| now apply wp_ret].
    destruct (0 <? value); [apply wp_emit; [exact I | reflexivity] |].
    now apply wp_ret.
  - intros [] w1 ->. exact HQ.
Qed.

Lemma wp_toggleCell_inside P w row col (Q : unit -> World -> Prop) :
  wf w -> 0 <= row < rows w -> 0 <= col < cols w ->
  Q tt (set_grid (grid_set (grid w) row col
                    (toggled (cellAt (grid w) row col))) w) ->
  wp P (toggleCell row col) w Q.
Proof.
  intros (Hr & Hc & Hs) Hrow Hcol HQ. unfold toggleCell.
  apply wp_bind, wp_gets. apply wp_bind, wp_gets.
  destruct (Z.leb_spec 0 row); [| lia].
  destruct (Z.ltb_spec row (rows w)); [| lia].
  destruct (Z.leb_spec 0 col); [| lia].
  destruct (Z.ltb_spec col (cols w)); [| lia].
  cbn [andb]. apply wp_bind, wp_gets. apply wp_bind.
  eapply wp_read2; [exact Hs | lia |].
  apply wp_store2; [exact Hs | lia | lia |]. exact HQ.
Qed.

(** Outside the grid [toggleCell] returns at once: no variable changes,
    nothing is thrown, no effect is performed. *)
Lemma toggleCell_outside w row col :
  row < 0 \/ rows w <= row \/ col < 0 \/ cols w <= col ->
  toggleCell row col w = ([], Ok (tt, w)).
Proof.
  intros Hout. unfold toggleCell, bind, gets. cbn.
  destruct (Z.leb_spec 0 row); cbn [andb]; [| reflexivity].
  destruct (Z.ltb_spec row (rows w)); cbn [andb]; [| reflexivity].
  destruct (Z.leb_spec 0 col); cbn [andb]; [| reflexivity].
  destruct (Z.ltb_spec col (cols w)); cbn [andb]; [lia | reflexivity].
Qed.

Lemma wp_randomizeGridWith P density w (Q : unit -> World -> Prop) :
  0 <= rows w < 4294967296 -> 0 <= cols w < 4294967296 ->
  (forall g',
     randomized density (randomTape w) (randomCalls w) (rows w) (cols w) g' ->
     Q tt (set_randomCalls (randomCalls w + rows w * cols w) (set_grid g' w))) ->
  wp P (randomizeGridWith density) w Q.
Proof.
  intros Hr Hc HQ. unfold randomizeGridWith.
  set (F := fun i j =>
         drawnCell density (randomTape w (randomCalls w + i * cols w + j))).
  apply wp_bind, wp_createEmptyGrid; [exact Hr | exact Hc |].
  apply wp_bind, wp_modify. apply wp_bind, wp_gets. cbn [rows set_grid].
  apply wp_for_range with
    (I := fun i (_ : unit) w1 => exists g1,
       w1 = set_randomCalls (randomCalls w + i * cols w) (set_grid g1 w) /\
       shaped (rows w) (cols w) g1 /\
       forall i' j', 0 <= i' < rows w -> 0 <= j' < cols w ->
         cellAt g1 i' j' = Some (if i' <? i then F i' j' else 0)).
  - lia.
  - exists (emptyGrid (rows w) (cols w)). split.
    + world_eq.
    + split; [apply shaped_emptyGrid; lia |].
      intros i' j' Hi' Hj'. rewrite cellAt_emptyGrid by lia. zcases.
  - intros i [] w1 Hi (g1 & -> & Hg1 & Hcells).
    apply wp_bind, wp_gets. cbn [cols set_randomCalls set_grid].
    apply wp_for_range with
      (I := fun j (_ : unit) w1 => exists g2,
         w1 = set_randomCalls (randomCalls w + i * cols w + j)
                (set_grid g2 w) /\
         shaped (rows w) (cols w) g2 /\
         forall i' j', 0 <= i' < rows w -> 0 <= j' < cols w ->
           cellAt g2 i' j' =
           Some (if (i' <? i) || ((i' =? i) && (j' <? j))
                 then F i' j' else 0)).
    + lia.
    + exists g1. split; [world_eq |].
      split; [exact Hg1 |].
      intros i' j' Hi' Hj'. rewrite Hcells by lia. zcases.
    + intros j [] w1 Hj (g2 & -> & Hg2 & Hcells2).
      apply wp_bind. unfold Math_random at 1.
      eexists [], _, _. split; [reflexivity |]. split; [constructor |].
      apply wp_store2; [exact Hg2 | cbn; lia | cbn; lia |].
      cbn [randomTape randomCalls grid set_randomCalls set_grid].
      exists (grid_set g2 i j (F i j)). split.
      * world_eq.
      * split; [now apply shaped_grid_set |].
        intros i' j' Hi' Hj'.
        rewrite (cellAt_grid_set (rows w) (cols w)) by (assumption || lia).
        destruct (Z.eqb_spec i' i) as [->|Hne];
          destruct (Z.eqb_spec j' j) as [->|Hnej]; cbn [andb];
          try rewrite Hcells2 by lia; zcases.
    + intros [] w1 (g2 & -> & Hg2 & Hcells2). exists g2.
      split; [world_eq |].
      split; [exact Hg2 |].
      intros i' j' Hi' Hj'. rewrite Hcells2 by lia. zcases.
  - intros [] w1 (g1 & -> & Hg1 & Hcells).
    apply HQ. split; [exact Hg1 |].
    intros i j Hi Hj. rewrite Hcells by lia. fold (F i j). zcases.
Qed.

Lemma cell_count_bounds n :
  0 <= n < 4294967296 -> 0 <= n / CELL_SIZE < 4294967296.
Proof. intros H. unfold CELL_SIZE. Z.div_mod_to_equations. lia. Qed.

Lemma wp_resizeCanvas w canvasWidth canvasHeight (Q : unit -> World -> Prop) :
  wf w ->
  0 <= canvasWidth < 4294967296 -> 0 <= canvasHeight < 4294967296 ->
  (forall g',
     resized (rows w) (cols w)
       (canvasHeight / CELL_SIZE) (canvasWidth / CELL_SIZE) (grid w) g' ->
     Q tt (set_grid g' (set_rows (canvasHeight / CELL_SIZE)
                          (set_cols (canvasWidth / CELL_SIZE) w)))) ->
  wp safe_event (resizeCanvas canvasWidth canvasHeight) w Q.
Proof.
  intros (Hr & Hc & Hs) HW HH HQ.
  pose proof (cell_count_bounds _ HW) as Hnc.
  pose proof (cell_count_bounds _ HH) as Hnr.
  unfold resizeCanvas.
  set (nc := canvasWidth / CELL_SIZE) in *.
  set (nr := canvasHeight / CELL_SIZE) in *.
  set (w0 := set_rows nr (set_cols nc w)).
  apply wp_bind, wp_gets. apply wp_bind, wp_modify. apply wp_bind, wp_modify.
  fold w0.
  apply wp_bind, wp_createEmptyGrid; [exact Hnr | exact Hnc |].
  apply wp_bind, wp_modify.
  change (rows w0) with nr. change (cols w0) with nc.
  assert (Hdone : forall g', resized (rows w) (cols w) nr nc (grid w) g' ->
            wp safe_event draw (set_grid g' w0) Q).
  { intros g' Hres. apply wp_draw; [| now apply HQ].
    split; [exact Hnr |]. split; [exact Hnc |]. apply Hres. }
  apply wp_bind.
  destruct (Z.ltb_spec 0 (Z.of_nat (length (grid w)))) as [Hsome|Hnone].
  2:{ apply wp_ret. apply Hdone. split; [apply shaped_emptyGrid; lia |].
      intros i j Hi Hj. rewrite cellAt_emptyGrid by lia.
      destruct Hs as [Hlen _]. zcases. }
  assert (Hr0 : 0 < rows w) by (destruct Hs; lia).
  destruct (shaped_row _ _ _ 0 Hs ltac:(lia)) as (line0 & Hline0 & Hlen0).
  apply wp_bind, wp_gets. change (rows (set_grid _ w0)) with nr.
  replace (Z.of_nat (length (grid w))) with (rows w) by (destruct Hs; lia).
  apply wp_for_range with
    (I := fun i (_ : unit) w1 => exists g1,
       w1 = set_grid g1 w0 /\ shaped nr nc g1 /\
       forall i' j', 0 <= i' < nr -> 0 <= j' < nc ->
         cellAt g1 i' j' =
         if (i' <? i) && (j' <? Z.min nc (cols w))
         then cellAt (grid w) i' j' else Some 0).
  - lia.
  - exists (emptyGrid nr nc). split; [reflexivity |].
    split; [apply shaped_emptyGrid; lia |].
    intros i' j' Hi' Hj'. rewrite cellAt_emptyGrid by lia. zcases.
  - intros i [] w1 Hi (g1 & -> & Hg1 & Hcells).
    apply wp_bind, wp_gets. change (cols (set_grid g1 w0)) with nc.
    apply wp_bind. rewrite Hline0. apply wp_ret. rewrite Hlen0.
    apply wp_for_range with
      (I := fun j (_ : unit) w1 => exists g2,
         w1 = set_grid g2 w0 /\ shaped nr nc g2 /\
         forall i' j', 0 <= i' < nr -> 0 <= j' < nc ->
           cellAt g2 i' j' =
           if ((i' <? i) && (j' <? Z.min nc (cols w)))
              || ((i' =? i) && (j' <? j))
           then cellAt (grid w) i' j' else Some 0).
    + lia.
    + exists g1. split; [reflexivity |]. split; [exact Hg1 |].
      intros i' j' Hi' Hj'. rewrite Hcells by lia. zcases.
    + intros j [] w1 Hj (g2 & -> & Hg2 & Hcells2).
      apply wp_bind. eapply wp_read2; [exact Hs | lia |].
      destruct (shaped_cell _ _ _ i j Hs ltac:(lia) ltac:(lia)) as [z Hz].
      rewrite Hz.
      apply wp_store2; [exact Hg2 | cbn; lia | cbn; lia |].
      exists (grid_set g2 i j z). split; [reflexivity |].
      split; [now apply shaped_grid_set |].
      intros i' j' Hi' Hj'.
      rewrite (cellAt_grid_set nr nc) by (assumption || lia).
      destruct (Z.eqb_spec i' i) as [->|Hne];
        destruct (Z.eqb_spec j' j) as [->|Hnej]; cbn [andb];
        try rewrite Hcells2 by lia; try rewrite Hz; zcases.
    + intros [] w1 (g2 & -> & Hg2 & Hcells2). exists g2.
      split; [reflexivity |]. split; [exact Hg2 |].
      intros i' j' Hi' Hj'. rewrite Hcells2 by lia. zcases.
  - intros [] w1 (g1 & -> & Hg1 & Hcells). apply Hdone.
    split; [exact Hg1 |].
    intros i j Hi Hj. rewrite Hcells by lia. zcases.
Qed.

(* ===================================================================== *)
(** ** Lemmas on traces and cell values *)
(* ===================================================================== *)

Lemma no_events (t : list Event) : Forall (fun _ => False) t -> t = [].
Proof. destruct t; [reflexivity |]. intros H. inversion H. contradiction. Qed.

Lemma cells_nonneg_cellAt g i j v :
  cells_nonneg g -> cellAt g i j = Some v -> 0 <= v.
Proof.
  intros Hall Hv. unfold cellAt in Hv.
  destruct (elem g (Int i)) as [line|] eqn:Hl; [| discriminate].
  cbn in Hl, Hv.
  destruct (0 <=? i); [| discriminate]. destruct (0 <=? j); [| discriminate].
  unfold cells_nonneg in Hall. rewrite Forall_lookup in Hall.
  specialize (Hall _ _ Hl). rewrite Forall_lookup in Hall.
  exact (Hall _ _ Hv).
Qed.

(* ===================================================================== *)
(** ** Lemmas on reachable states *)
(* ===================================================================== *)

Lemma cells_023_within r c g :
  shaped r c g ->
  (forall i j v, 0 <= i < r -> 0 <= j < c -> cellAt g i j = Some v ->
                 v = 0 \/ v = 2 \/ v = 3) ->
  cells_023 g.
Proof.
  intros Hs Hin i j v Hv.
  destruct (Z_lt_dec i 0); [rewrite (cellAt_outside r c) in Hv by (auto; lia); discriminate |].
  destruct (Z_le_dec r i); [rewrite (cellAt_outside r c) in Hv by (auto; lia); discriminate |].
  destruct (Z_lt_dec j 0); [rewrite (cellAt_outside r c) in Hv by (auto; lia); discriminate |].
  destruct (Z_le_dec c j); [rewrite (cellAt_outside r c) in Hv by (auto; lia); discriminate |].
  apply (Hin i j); [lia | lia | exact Hv].
Qed.

Lemma healthy_initial tape : healthy (initialWorld tape).
Proof.
  split.
  - repeat split; cbn; try lia. constructor.
  - intros i j v Hv. unfold cellAt in Hv. cbn in Hv.
    destruct (0 <=? i); [| discriminate].
    rewrite lookup_nil in Hv. discriminate.
Qed.

Lemma healthy_emptyGrid w :
  wf w -> healthy (set_grid (emptyGrid (rows w) (cols w)) w).
Proof.
  intros (Hr & Hc & Hs).
  assert (Hs' : shaped (rows w) (cols w) (emptyGrid (rows w) (cols w)))
    by (apply shaped_emptyGrid; lia).
  split; [exact (conj Hr (conj Hc Hs')) |].
  apply (cells_023_within _ _ _ Hs'). intros i j v Hi Hj Hv.
  rewrite cellAt_emptyGrid in Hv by lia. left. congruence.
Qed.

Lemma healthy_nextGeneration w g' :
  wf w -> nextGeneration (rows w) (cols w) (grid w) g' ->
  healthy (set_grid g' w).
Proof.
  intros (Hr & Hc & Hs) [Hs' Hcells].
  split; [exact (conj Hr (conj Hc Hs')) |].
  apply (cells_023_within _ _ _ Hs'). intros i j v Hi Hj Hv.
  rewrite Hcells in Hv by assumption. injection Hv as <-.
  unfold nextCell.
  destruct (gt0 _); cbn [andb negb]; zcases.
Qed.

Lemma healthy_toggled w row col :
  healthy w -> 0 <= row < rows w -> 0 <= col < cols w ->
  healthy (set_grid (grid_set (grid w) row col
                       (toggled (cellAt (grid w) row col))) w).
Proof.
  intros [(Hr & Hc & Hs) Hcells] Hrow Hcol.
  split; [exact (conj Hr (conj Hc (shaped_grid_set _ _ _ _ _ _ Hs))) |].
  intros i j v Hv. cbn [grid set_grid] in Hv.
  rewrite (cellAt_grid_set (rows w) (cols w)) in Hv by assumption.
  destruct ((i =? row) && (j =? col)); [| eapply Hcells; eauto].
  injection Hv as <-. unfold toggled. destruct (gt0 _); auto.
Qed.

Lemma healthy_randomized density w g' k :
  0 <= rows w < 4294967296 -> 0 <= cols w < 4294967296 ->
  randomized density (randomTape w) (randomCalls w) (rows w) (cols w) g' ->
  healthy (set_randomCalls k (set_grid g' w)).
Proof.
  intros Hr Hc [Hs' Hcells].
  split; [exact (conj Hr (conj Hc Hs')) |].
  apply (cells_023_within _ _ _ Hs'). intros i j v Hi Hj Hv.
  rewrite Hcells in Hv by assumption. injection Hv as <-.
  unfold drawnCell. destruct (Qlt_le_dec _ _); auto.
Qed.

Lemma healthy_resized w newRows newCols g' :
  healthy w ->
  0 <= newRows < 4294967296 -> 0 <= newCols < 4294967296 ->
  resized (rows w) (cols w) newRows newCols (grid w) g' ->
  healthy (set_grid g' (set_rows newRows (set_cols newCols w))).
Proof.
  intros [_ Hold] Hr Hc [Hs' Hcells].
  split; [exact (conj Hr (conj Hc Hs')) |].
  apply (cells_023_within _ _ _ Hs'). intros i j v Hi Hj Hv.
  rewrite Hcells in Hv by assumption.
  destruct (_ && _); [eapply Hold; eauto |]. left. congruence.
Qed.

Lemma wp_toggleCell_outside P w row col (Q : unit -> World -> Prop) :
  row < 0 \/ rows w <= row \/ col < 0 \/ cols w <= col ->
  Q tt w -> wp P (toggleCell row col) w Q.
Proof.
  intros Hout HQ. exists [], tt, w.
  split; [now apply toggleCell_outside |]. split; [constructor | exact HQ].
Qed.

Lemma wp_toggleCell_healthy w row col :
  healthy w -> wp safe_event (toggleCell row col) w (fun _ w' => healthy w').
Proof.
  intros Hh.
  destruct (Z_lt_dec row 0); [apply wp_toggleCell_outside; auto |].
  destruct (Z_le_dec (rows w) row); [apply wp_toggleCell_outside; auto |].
  destruct (Z_lt_dec col 0); [apply wp_toggleCell_outside; auto |].
  destruct (Z_le_dec (cols w) col); [apply wp_toggleCell_outside; auto |].
  apply wp_toggleCell_inside; [apply Hh | lia | lia |].
  apply healthy_toggled; [exact Hh | lia | lia].
Qed.

Lemma wp_generation_healthy w :
  healthy w ->
  wp safe_event computeNextGeneration w (fun _ w' => healthy w').
Proof.
  intros [Hwf _]. apply wp_computeNextGeneration; [exact Hwf |].
  intros g'. now apply healthy_nextGeneration.
Qed.

Lemma wp_randomize_healthy w :
  healthy w -> wp safe_event randomizeGrid w (fun _ w' => healthy w').
Proof.
  intros [(Hr & Hc & _) _]. apply wp_randomizeGridWith; [exact Hr | exact Hc |].
  intros g'. now apply healthy_randomized.
Qed.

Lemma wp_then_draw (m : M unit) w :
  wp safe_event m w (fun _ w' => healthy w') ->
  wp safe_event (m ;; draw) w (fun _ w' => healthy w').
Proof.
  intros Hm. apply wp_bind. eapply wp_conseq; [exact Hm |].
  intros [] w' Hh. apply wp_draw; [apply Hh | exact Hh].
Qed.

(** From a healthy state every admissible action runs to completion,
    divides by no zero, and leaves a healthy state. *)
Lemma perform_healthy a w :
  healthy w -> admissible a ->
  wp safe_event (perform a) w (fun _ w' => healthy w').
Proof.
  intros Hh Ha. pose proof Hh as [Hwf Hcells].
  destruct a; cbn [perform].
  - destruct Ha as [HW HH]. apply wp_resizeCanvas; [exact Hwf | exact HW | exact HH |].
    intros g'. apply healthy_resized; [exact Hh | |];
      now apply cell_count_bounds.
  - unfold animate. apply wp_bind, wp_gets. apply wp_bind.
    assert (Hrest : wp safe_event (emit EvRequestFrame) w
                      (fun _ w' => healthy w'))
      by (apply wp_emit; [exact I | exact Hh]).
    destruct (isPlaying w); [| now apply wp_ret].
    apply wp_bind, wp_gets. apply wp_bind, wp_gets.
    destruct (intervalElapsed _ _ _); [| now apply wp_ret].
    apply wp_bind. eapply wp_conseq; [apply wp_generation_healthy, Hh |].
    intros [] w1 Hh1. apply wp_bind, wp_draw; [apply Hh1 |].
    apply wp_modify. apply wp_emit; [exact I | exact Hh1].
  - unfold handlePlayPause. apply wp_bind, wp_gets. apply wp_modify. exact Hh.
  - apply wp_then_draw, wp_generation_healthy, Hh.
  - unfold handleClear. destruct Hwf as (Hr & Hc & Hs).
    apply wp_bind, wp_createEmptyGrid; [exact Hr | exact Hc |].
    apply wp_bind, wp_modify.
    pose proof (healthy_emptyGrid w (conj Hr (conj Hc Hs))) as Hh'.
    apply wp_draw; [apply Hh' | exact Hh'].
  - apply wp_then_draw, wp_randomize_healthy, Hh.
  - apply wp_modify. exact Hh.
  - apply wp_then_draw, wp_toggleCell_healthy, Hh.
  - apply wp_generation_healthy, Hh.
  - apply wp_toggleCell_healthy, Hh.
  - apply wp_randomize_healthy, Hh.
Qed.

Lemma reachable_healthy w : reachable w -> healthy w.
Proof.
  induction 1 as [tape | w a t w' _ IH Ha Hrun].
  - apply healthy_initial.
  - destruct (perform_healthy a w IH Ha) as (t2 & [] & w2 & Hrun2 & _ & Hh).
    rewrite Hrun in Hrun2. now injection Hrun2 as _ ->.
Qed.

(** No handler can fail in a reachable state, and none divides by zero. *)
Lemma reachable_progress w a :
  reachable w -> admissible a ->
  exists t w', perform a w = (t, Ok (tt, w')) /\ Forall safe_event t.
Proof.
  intros Hreach Ha.
  destruct (perform_healthy a w (reachable_healthy w Hreach) Ha)
    as (t & [] & w' & Hrun & Ht & _).
  eauto.
Qed.

(* ===================================================================== *)
(** ** Lemmas on the blinker *)
(* ===================================================================== *)

Lemma wrap_cases n i d :
  0 <= i < n -> -1 <= d <= 1 ->
  (i + d + n) mod n =
  if i + d <? 0 then n - 1 else if n <=? i + d then 0 else i + d.
Proof.
  intros Hi Hd.
  destruct (Z.ltb_spec (i + d) 0).
  - rewrite Z.mod_small by lia. lia.
  - destruct (Z.leb_spec n (i + d)).
    + symmetry. apply (Z.mod_unique_pos _ _ 2); lia.
    + symmetry. apply (Z.mod_unique_pos _ _ 1); lia.
Qed.

Lemma wrappedNeighbors_sum r c g row col :
  wrappedNeighbors r c g row col =
  Z.b2z (alive g ((row + -1 + r) mod r) ((col + -1 + c) mod c)) +
  Z.b2z (alive g ((row + -1 + r) mod r) ((col + 0 + c) mod c)) +
  Z.b2z (alive g ((row + -1 + r) mod r) ((col + 1 + c) mod c)) +
  Z.b2z (alive g ((row + 0 + r) mod r) ((col + -1 + c) mod c)) +
  Z.b2z (alive g ((row + 0 + r) mod r) ((col + 1 + c) mod c)) +
  Z.b2z (alive g ((row + 1 + r) mod r) ((col + -1 + c) mod c)) +
  Z.b2z (alive g ((row + 1 + r) mod r) ((col + 0 + c) mod c)) +
  Z.b2z (alive g ((row + 1 + r) mod r) ((col + 1 + c) mod c)).
Proof.
  unfold wrappedNeighbors. cbn [moore_offsets List.filter fst snd].
  repeat match goal with
         | |- context [alive ?g ?x ?y] =>
             let b := fresh "b" in
             generalize (alive g x y); intros b
         end.
  repeat match goal with b : bool |- _ => destruct b end; reflexivity.
Qed.

Lemma alive_depicts n m g f i j :
  depicts n m g f -> 0 <= i < n -> 0 <= j < m ->
  alive g i j = (0 <? f i j).
Proof.
  intros [_ Hcells] Hi Hj. unfold alive. now rewrite Hcells.
Qed.

(** The neighbour count of a cell of a depicted grid, with the wrap spelt
    out as comparisons. *)
Lemma wrappedNeighbors_depicts n m g f i j :
  depicts n m g f -> 0 <= i < n -> 0 <= j < m ->
  let up := if i + -1 <? 0 then n - 1 else i + -1 in
  let down := if n <=? i + 1 then 0 else i + 1 in
  let left := if j + -1 <? 0 then m - 1 else j + -1 in
  let right := if m <=? j + 1 then 0 else j + 1 in
  wrappedNeighbors n m g i j =
  Z.b2z (0 <? f up left) + Z.b2z (0 <? f up j) + Z.b2z (0 <? f up right) +
  Z.b2z (0 <? f i left) + Z.b2z (0 <? f i right) +
  Z.b2z (0 <? f down left) + Z.b2z (0 <? f down j) +
  Z.b2z (0 <? f down right).
Proof.
  intros Hd Hi Hj up down left right.
  rewrite wrappedNeighbors_sum.
  rewrite !(wrap_cases n i) by lia. rewrite !(wrap_cases m j) by lia.
  assert (Hup : 0 <= up < n) by (unfold up; zprune).
  assert (Hdown : 0 <= down < n) by (unfold down; zprune).
  assert (Hleft : 0 <= left < m) by (unfold left; zprune).
  assert (Hright : 0 <= right < m) by (unfold right; zprune).
  replace (if i + -1 <? 0 then n - 1
           else if n <=? i + -1 then 0 else i + -1) with up
    by (unfold up; zprune).
  replace (if i + 0 <? 0 then n - 1
           else if n <=? i + 0 then 0 else i + 0) with i by zprune.
  replace (if i + 1 <? 0 then n - 1
           else if n <=? i + 1 then 0 else i + 1) with down
    by (unfold down; zprune).
  replace (if j + -1 <? 0 then m - 1
           else if m <=? j + -1 then 0 else j + -1) with left
    by (unfold left; zprune).
  replace (if j + 0 <? 0 then m - 1
           else if m <=? j + 0 then 0 else j + 0) with j by zprune.
  replace (if j + 1 <? 0 then m - 1
           else if m <=? j + 1 then 0 else j + 1) with right
    by (unfold right; zprune).
  now rewrite !(alive_depicts n m g f) by assumption.
Qed.

Lemma wrap_pred n x :
  0 <= x < n -> (x - 1) mod n = if x =? 0 then n - 1 else x - 1.
Proof.
  intros Hx. destruct (Z.eqb_spec x 0) as [->|Hne].
  - symmetry. apply (Z.mod_unique_pos _ _ (-1)); lia.
  - apply Z.mod_small. lia.
Qed.

Lemma wrap_succ n x :
  0 <= x < n -> (x + 1) mod n = if x =? n - 1 then 0 else x + 1.
Proof.
  intros Hx. destruct (Z.eqb_spec x (n - 1)) as [->|Hne].
  - symmetry. apply (Z.mod_unique_pos _ _ 1); lia.
  - apply Z.mod_small. lia.
Qed.

Lemma hBlinker_generation n m r c a b d g g' :
  4 <= n -> 4 <= m -> 0 <= r < n -> 0 <= c < m ->
  0 < a -> 0 < b -> 0 < d ->
  depicts n m g (hBlinker m r c a b d) ->
  nextGeneration n m g g' ->
  depicts n m g' (vBlinker n r c 3 2 3).
Proof.
  intros Hn Hm Hr Hc Ha Hb Hd Hg [Hs' Hcells].
  split; [exact Hs' |]. intros i j Hi Hj.
  rewrite Hcells by assumption. f_equal.
  rewrite (wrappedNeighbors_depicts n m g _ i j Hg Hi Hj).
  destruct Hg as [_ Hg]. rewrite Hg by assumption. clear Hg Hcells Hs'.
  cbv zeta.
  unfold hBlinker; rewrite (wrap_pred m c), (wrap_succ m c) by lia.
  settle_ltb (i + -1) 0. all: settle_leb n (i + 1).
  all: settle_all_eqb r.
  all: settle_ltb (j + -1) 0. all: settle_leb m (j + 1).
  all: settle_eqb c 0. all: settle_eqb c (m - 1).
  all: repeat zprune_step.
  all: unfold vBlinker; rewrite (wrap_pred n r), (wrap_succ n r) by lia.
  all: settle_eqb r 0. all: settle_eqb r (n - 1).
  all: zprune_on c.
  all: unfold nextCell, gt0.
  all: cbn.
  all: repeat zprune_step.
  all: try reflexivity; try lia.
Qed.

Lemma vBlinker_generation n m r c a b d g g' :
  4 <= n -> 4 <= m -> 0 <= r < n -> 0 <= c < m ->
  0 < a -> 0 < b -> 0 < d ->
  depicts n m g (vBlinker n r c a b d) ->
  nextGeneration n m g g' ->
  depicts n m g' (hBlinker m r c 3 2 3).
Proof.
  intros Hn Hm Hr Hc Ha Hb Hd Hg [Hs' Hcells].
  split; [exact Hs' |]. intros i j Hi Hj.
  rewrite Hcells by assumption. f_equal.
  rewrite (wrappedNeighbors_depicts n m g _ i j Hg Hi Hj).
  destruct Hg as [_ Hg]. rewrite Hg by assumption. clear Hg Hcells Hs'.
  cbv zeta.
  unfold vBlinker; rewrite (wrap_pred n r), (wrap_succ n r) by lia.
  settle_ltb (j + -1) 0. all: settle_leb m (j + 1).
  all: settle_all_eqb c.
  all: settle_ltb (i + -1) 0. all: settle_leb n (i + 1).
  all: settle_eqb r 0. all: settle_eqb r (n - 1).
  all: repeat zprune_step.
  all: unfold hBlinker; rewrite (wrap_pred m c), (wrap_succ m c) by lia.
  all: settle_eqb c 0. all: settle_eqb c (m - 1).
  all: zprune_on r.
  all: unfold nextCell, gt0.
  all: cbn.
  all: repeat zprune_step.
  all: try reflexivity; try lia.
Qed.

(* ===================================================================== *)
(** ** Facts about the concrete states *)
(* ===================================================================== *)

Lemma wf_clickedBlinker : wf clickedBlinker.
Proof.
  split; [cbn; lia |]. split; [cbn; lia |].
  split; [reflexivity | repeat constructor].
Qed.

Lemma wf_oneCellWorld : wf oneCellWorld.
Proof.
  split; [cbn; lia |]. split; [cbn; lia |].
  split; [reflexivity | repeat constructor].
Qed.

Lemma wf_liveCellWorld : wf liveCellWorld.
Proof.
  split; [cbn; lia |]. split; [cbn; lia |].
  split; [reflexivity | repeat constructor].
Qed.

Lemma wf_cornerWorld : wf cornerWorld.
Proof.
  split; [cbn; lia |]. split; [cbn; lia |].
  split; [reflexivity | repeat constructor].
Qed.

Lemma cells_nonneg_clickedBlinker : cells_nonneg (grid clickedBlinker).
Proof. repeat constructor; lia. Qed.

Lemma clickedBlinker_depicts :
  depicts 5 5 (grid clickedBlinker) (hBlinker 5 2 2 3 3 3).
Proof.
  split; [split; [reflexivity | repeat constructor] |].
  intros i j Hi Hj.
  assert (Hi' : i = 0 \/ i = 1 \/ i = 2 \/ i = 3 \/ i = 4) by lia.
  assert (Hj' : j = 0 \/ j = 1 \/ j = 2 \/ j = 3 \/ j = 4) by lia.
  destruct Hi' as [-> | [-> | [-> | [-> | ->]]]];
    destruct Hj' as [-> | [-> | [-> | [-> | ->]]]]; reflexivity.
Qed.

Lemma reachable_clickedBlinker : reachable clickedBlinker.
Proof.
  apply (reach_step
           (mkWorld 5 5
              [[0; 0; 0; 0; 0]; [0; 0; 0; 0; 0]; [0; 3; 3; 0; 0];
               [0; 0; 0; 0; 0]; [0; 0; 0; 0; 0]]
              false DEFAULT_SPEED 0%float zeroDraws 0)
           (ActToggle 2 3) []);
    [| exact I | vm_compute; reflexivity].
  apply (reach_step
           (mkWorld 5 5
              [[0; 0; 0; 0; 0]; [0; 0; 0; 0; 0]; [0; 3; 0; 0; 0];
               [0; 0; 0; 0; 0]; [0; 0; 0; 0; 0]]
              false DEFAULT_SPEED 0%float zeroDraws 0)
           (ActToggle 2 2) []);
    [| exact I | vm_compute; reflexivity].
  apply (reach_step emptyFive (ActToggle 2 1) []);
    [| exact I | vm_compute; reflexivity].
  apply (reach_step (initialWorld zeroDraws) (ActResize 50 50)
           [EvClearCanvas]);
    [apply reach_init | cbn; lia | vm_compute; reflexivity].
Qed.

(* ===================================================================== *)
(** ** The claims *)
(* ===================================================================== *)

(** C1.  [computeNextGeneration] rebinds [grid] to a new grid and changes
    nothing else; for every cell of the grid, with [v] the cell's value and
    [n] the result of [countNeighbors], both taken in the state before the
    call, [n] is the number of the 8 wrapped Moore neighbours that are
    alive in the old grid, and the new value is [n] when [v > 0] and [n] is
    2 or 3, it is 3 when [v = 0] and [n = 3], and it is 0 in every other
    case. *)
Theorem computeNextGeneration_conway w :
  wf w -> cells_nonneg (grid w) ->
  exists t g',
    computeNextGeneration w = (t, Ok (tt, set_grid g' w)) /\
    shaped (rows w) (cols w) g' /\
    forall i j, 0 <= i < rows w -> 0 <= j < cols w ->
      exists v n t',
        cellAt (grid w) i j = Some v /\
        countNeighbors i j w = (t', Ok (n, w)) /\
        n = wrappedNeighbors (rows w) (cols w) (grid w) i j /\
        (0 < v -> n = 2 \/ n = 3 -> cellAt g' i j = Some n) /\
        (v = 0 -> n = 3 -> cellAt g' i j = Some 3) /\
        (~ (0 < v /\ (n = 2 \/ n = 3)) -> ~ (v = 0 /\ n = 3) ->
         cellAt g' i j = Some 0).
Proof.
  intros Hwf Hnn.
  destruct (wp_computeNextGeneration w
              (fun _ w' => exists g', w' = set_grid g' w /\
                 nextGeneration (rows w) (cols w) (grid w) g') Hwf)
    as (t & [] & w' & Hrun & _ & g' & -> & Hshape & Hcells).
  { intros g' Hg'. exists g'. split; [reflexivity | exact Hg']. }
  exists t, g'. split; [exact Hrun |]. split; [exact Hshape |].
  intros i j Hi Hj.
  pose proof Hwf as (Hr & Hc & Hs).
  destruct (shaped_cell _ _ _ i j Hs Hi Hj) as [v Hv].
  destruct (wp_countNeighbors w i j (fun n w' => w' = w /\
              n = wrappedNeighbors (rows w) (cols w) (grid w) i j))
    as (t' & n & w1 & Hcount & _ & -> & Hn); [assumption .. | auto |].
  exists v, n, t'. split; [exact Hv |]. split; [exact Hcount |].
  split; [exact Hn |].
  rewrite Hcells by assumption. rewrite <- Hn, Hv.
  pose proof (cells_nonneg_cellAt _ _ _ _ Hnn Hv) as Hv0.
  unfold nextCell, gt0. repeat split.
  - intros Hpos [-> | ->]; zcases.
  - intros -> ->. reflexivity.
  - intros H1 H2. f_equal. zcases.
Qed.

Lemma computeNextGeneration_conway_witness :
  wf clickedBlinker /\ cells_nonneg (grid clickedBlinker) /\
  exists t g',
    computeNextGeneration clickedBlinker =
      (t, Ok (tt, set_grid g' clickedBlinker)) /\
    shaped (rows clickedBlinker) (cols clickedBlinker) g' /\
    forall i j,
      0 <= i < rows clickedBlinker -> 0 <= j < cols clickedBlinker ->
      exists v n t',
        cellAt (grid clickedBlinker) i j = Some v /\
        countNeighbors i j clickedBlinker = (t', Ok (n, clickedBlinker)) /\
        n = wrappedNeighbors (rows clickedBlinker) (cols clickedBlinker)
              (grid clickedBlinker) i j /\
        (0 < v -> n = 2 \/ n = 3 -> cellAt g' i j = Some n) /\
        (v = 0 -> n = 3 -> cellAt g' i j = Some 3) /\
        (~ (0 < v /\ (n = 2 \/ n = 3)) -> ~ (v = 0 /\ n = 3) ->
         cellAt g' i j = Some 0).
Proof.
  split; [exact wf_clickedBlinker |].
  split; [exact cells_nonneg_clickedBlinker |].
  exact (computeNextGeneration_conway clickedBlinker
           wf_clickedBlinker cells_nonneg_clickedBlinker).
Defined.

(** C2.  On a grid with at least one row and one column, for a cell of the
    grid, [countNeighbors] returns (without changing any variable) a number
    between 0 and 8 that is the number of Moore offsets [(i, j)] whose cell
    at [((row + i + rows) mod rows, (col + j + cols) mod cols)] is positive;
    on a 1 by 1 grid a live cell is therefore counted eight times as its own
    neighbour; and a live cell at [(0, 0)] is counted as a neighbour of
    [(rows - 1, cols - 1)], [(0, cols - 1)] and [(rows - 1, 0)]. *)
Theorem countNeighbors_wrapped_moore w row col :
  wf w -> 0 < rows w -> 0 < cols w ->
  0 <= row < rows w -> 0 <= col < cols w ->
  exists t n,
    countNeighbors row col w = (t, Ok (n, w)) /\
    0 <= n <= 8 /\
    n = wrappedNeighbors (rows w) (cols w) (grid w) row col /\
    (rows w = 1 -> cols w = 1 ->
     n = if alive (grid w) 0 0 then 8 else 0) /\
    (alive (grid w) 0 0 = true ->
     (row = rows w - 1 /\ col = cols w - 1) \/
     (row = 0 /\ col = cols w - 1) \/
     (row = rows w - 1 /\ col = 0) ->
     1 <= n).
Proof.
  intros Hwf Hr0 Hc0 Hrow Hcol.
  destruct (wp_countNeighbors w row col (fun n w' => w' = w /\
              n = wrappedNeighbors (rows w) (cols w) (grid w) row col))
    as (t & n & w1 & Hcount & _ & -> & Hn); [assumption .. | auto |].
  exists t, n. split; [exact Hcount |].
  split; [rewrite Hn; apply wrappedNeighbors_bounds |].
  split; [exact Hn |]. split.
  - intros H1 H1'. rewrite Hn, H1, H1'. unfold wrappedNeighbors.
    cbn [moore_offsets List.filter fst snd]. rewrite !Z.mod_1_r.
    destruct (alive (grid w) 0 0); reflexivity.
  - intros Hlive Hcorner. rewrite Hn. unfold wrappedNeighbors.
    cbn [moore_offsets List.filter fst snd].
    assert (Hwr : (rows w - 1 + 1 + rows w) mod rows w = 0).
    { replace (rows w - 1 + 1 + rows w) with (2 * rows w) by lia.
      apply Z.mod_mul. lia. }
    assert (Hwc : (cols w - 1 + 1 + cols w) mod cols w = 0).
    { replace (cols w - 1 + 1 + cols w) with (2 * cols w) by lia.
      apply Z.mod_mul. lia. }
    assert (Hzr : (0 + 0 + rows w) mod rows w = 0).
    { replace (0 + 0 + rows w) with (1 * rows w) by lia.
      apply Z.mod_mul. lia. }
    assert (Hzc : (0 + 0 + cols w) mod cols w = 0).
    { replace (0 + 0 + cols w) with (1 * cols w) by lia.
      apply Z.mod_mul. lia. }
    destruct Hcorner as [[-> ->] | [[-> ->] | [-> ->]]];
      rewrite ?Hwr, ?Hwc, ?Hzr, ?Hzc, ?Hlive;
      repeat match goal with
             | |- context [alive ?g ?x ?y] => destruct (alive g x y)
             end;
      cbn [length]; lia.
Qed.

Lemma countNeighbors_wrapped_moore_witness :
  (exists t,
     countNeighbors 2 2 clickedBlinker = (t, Ok (2, clickedBlinker))) /\
  (exists t,
     countNeighbors 1 2 clickedBlinker = (t, Ok (3, clickedBlinker))) /\
  (exists t,
     countNeighbors 0 0 liveCellWorld = (t, Ok (8, liveCellWorld))) /\
  (exists t n,
     countNeighbors 4 4 cornerWorld = (t, Ok (n, cornerWorld)) /\ 1 <= n) /\
  (exists t,
     countNeighbors 0 4 cornerWorld = (t, Ok (1, cornerWorld))) /\
  (exists t,
     countNeighbors 4 0 cornerWorld = (t, Ok (1, cornerWorld))) /\
  (exists t,
     countNeighbors 2 2 cornerWorld = (t, Ok (0, cornerWorld))) /\
  (exists t,
     countNeighbors 0 0 oneCellWorld = (t, Ok (0, oneCellWorld))).
Proof.
  split; [| split; [| split; [| split; [| split; [| split; [| split]]]]]].
  - destruct (countNeighbors_wrapped_moore clickedBlinker 2 2
                wf_clickedBlinker eq_refl eq_refl)
      as (t & n & Hrun & _ & Hn & _); [cbn; lia | cbn; lia |].
    exists t. rewrite Hrun, Hn. reflexivity.
  - destruct (countNeighbors_wrapped_moore clickedBlinker 1 2
                wf_clickedBlinker eq_refl eq_refl)
      as (t & n & Hrun & _ & Hn & _); [cbn; lia | cbn; lia |].
    exists t. rewrite Hrun, Hn. reflexivity.
  - destruct (countNeighbors_wrapped_moore liveCellWorld 0 0
                wf_liveCellWorld eq_refl eq_refl)
      as (t & n & Hrun & _ & _ & Hone & _); [cbn; lia | cbn; lia |].
    exists t. rewrite Hrun, (Hone eq_refl eq_refl). reflexivity.
  - destruct (countNeighbors_wrapped_moore cornerWorld 4 4
                wf_cornerWorld eq_refl eq_refl)
      as (t & n & Hrun & _ & _ & _ & Hcorner); [cbn; lia | cbn; lia |].
    exists t, n. split; [exact Hrun |].
    apply Hcorner; [reflexivity | left; split; reflexivity].
  - destruct (countNeighbors_wrapped_moore cornerWorld 0 4
                wf_cornerWorld eq_refl eq_refl)
      as (t & n & Hrun & _ & Hn & _); [cbn; lia | cbn; lia |].
    exists t. rewrite Hrun, Hn. reflexivity.
  - destruct (countNeighbors_wrapped_moore cornerWorld 4 0
                wf_cornerWorld eq_refl eq_refl)
      as (t & n & Hrun & _ & Hn & _); [cbn; lia | cbn; lia |].
    exists t. rewrite Hrun, Hn. reflexivity.
  - destruct (countNeighbors_wrapped_moore cornerWorld 2 2
                wf_cornerWorld eq_refl eq_refl)
      as (t & n & Hrun & _ & Hn & _); [cbn; lia | cbn; lia |].
    exists t. rewrite Hrun, Hn. reflexivity.
  - destruct (countNeighbors_wrapped_moore oneCellWorld 0 0
                wf_oneCellWorld eq_refl eq_refl)
      as (t & n & Hrun & _ & _ & Hone & _); [cbn; lia | cbn; lia |].
    exists t. rewrite Hrun, (Hone eq_refl eq_refl). reflexivity.
Defined.

(** C3.  With a positive [speed]: when [isPlaying] is false, [animate]
    changes no variable (it only requests the next frame); when it is true
    and [timestamp - lastUpdate >= 1000 / speed], both sides computed in
    doubles as the script computes them, [animate] runs
    [computeNextGeneration] once, repaints, and sets [lastUpdate] to
    [timestamp]; when it is true and that test fails, no variable
    changes. *)
Theorem animate_pacer w timestamp :
  wf w -> 0 < speed w ->
  (isPlaying w = false ->
   animate timestamp w = ([EvRequestFrame], Ok (tt, w))) /\
  (isPlaying w = true ->
   (1000 / Number_of_Z (speed w) <=? timestamp - lastUpdate w)%float = true ->
   exists t1 w1 t2,
     computeNextGeneration w = (t1, Ok (tt, w1)) /\
     draw w1 = (t2, Ok (tt, w1)) /\
     animate timestamp w =
       (t1 ++ t2 ++ [EvRequestFrame], Ok (tt, set_lastUpdate timestamp w1)) /\
     lastUpdate (set_lastUpdate timestamp w1) = timestamp) /\
  (isPlaying w = true ->
   (1000 / Number_of_Z (speed w) <=? timestamp - lastUpdate w)%float = false ->
   animate timestamp w = ([EvRequestFrame], Ok (tt, w))).
Proof.
  intros Hwf Hspeed. repeat split.
  - intros Hpaused. unfold animate, bind, gets. cbn. now rewrite Hpaused.
  - intros Hplay Hdue.
    destruct (wp_computeNextGeneration w
                (fun _ w' => wf w') Hwf)
      as (t1 & [] & w1 & Hgen & _ & Hwf1).
    { intros g' [Hshape _]. destruct Hwf as (Hr & Hc & _).
      repeat split; try apply Hr; try apply Hc; apply Hshape. }
    destruct (wp_draw w1 (fun _ w' => w' = w1) Hwf1 eq_refl)
      as (t2 & [] & w2 & Hdraw & _ & ->).
    exists t1, w1, t2. split; [exact Hgen |]. split; [exact Hdraw |].
    split; [| reflexivity].
    unfold animate, bind, gets.
    cbn -[computeNextGeneration draw intervalElapsed].
    rewrite Hplay. unfold intervalElapsed. cbv zeta. rewrite Hdue.
    rewrite Hgen, Hdraw. cbn.
    now rewrite app_nil_r, <- !app_assoc.
  - intros Hplay Hearly. unfold animate, bind, gets.
    cbn -[intervalElapsed]. rewrite Hplay.
    unfold intervalElapsed. cbv zeta. now rewrite Hearly.
Qed.

(** The frames of the witness are at 333.3333333333333, the double that
    [1000 / 3] is, and at the double just below it. *)
Lemma animate_pacer_witness :
  animate 0x1.4d55555555555p+8 (set_speed 3 clickedBlinker) =
    ([EvRequestFrame], Ok (tt, set_speed 3 clickedBlinker)) /\
  (exists t1 w1 t2,
     computeNextGeneration pacedBlinker = (t1, Ok (tt, w1)) /\
     draw w1 = (t2, Ok (tt, w1)) /\
     animate 0x1.4d55555555555p+8 pacedBlinker =
       (t1 ++ t2 ++ [EvRequestFrame],
        Ok (tt, set_lastUpdate 0x1.4d55555555555p+8 w1)) /\
     lastUpdate (set_lastUpdate 0x1.4d55555555555p+8 w1) =
       0x1.4d55555555555p+8%float) /\
  animate 0x1.4d55555555554p+8 pacedBlinker =
    ([EvRequestFrame], Ok (tt, pacedBlinker)).
Proof.
  split; [| split].
  - apply (proj1 (animate_pacer (set_speed 3 clickedBlinker)
                    0x1.4d55555555555p+8 wf_clickedBlinker eq_refl)).
    reflexivity.
  - apply (proj1 (proj2 (animate_pacer pacedBlinker 0x1.4d55555555555p+8
                           wf_clickedBlinker eq_refl)));
      reflexivity.
  - apply (proj2 (proj2 (animate_pacer pacedBlinker 0x1.4d55555555554p+8
                           wf_clickedBlinker eq_refl)));
      reflexivity.
Defined.

(** C4.  Outside the grid [toggleCell] changes nothing and throws nothing;
    inside it writes 3 over a cell holding 0 and 0 over a cell holding a
    positive value, and leaves every other cell as it was. *)
Theorem toggleCell_flips w row col :
  wf w ->
  (row < 0 \/ rows w <= row \/ col < 0 \/ cols w <= col ->
   toggleCell row col w = ([], Ok (tt, w))) /\
  (0 <= row < rows w -> 0 <= col < cols w ->
   exists g',
     toggleCell row col w = ([], Ok (tt, set_grid g' w)) /\
     shaped (rows w) (cols w) g' /\
     (cellAt (grid w) row col = Some 0 -> cellAt g' row col = Some 3) /\
     (forall v, cellAt (grid w) row col = Some v -> 0 < v ->
                cellAt g' row col = Some 0) /\
     (forall i j, (i, j) <> (row, col) ->
                  cellAt g' i j = cellAt (grid w) i j)).
Proof.
  intros Hwf. split; [apply toggleCell_outside |].
  intros Hrow Hcol. pose proof Hwf as (Hr & Hc & Hs).
  set (g' := grid_set (grid w) row col (toggled (cellAt (grid w) row col))).
  destruct (wp_toggleCell_inside (fun _ => False) w row col
              (fun _ w' => w' = set_grid g' w) Hwf Hrow Hcol eq_refl)
    as (t & [] & w' & Hrun & Ht & ->).
  apply no_events in Ht. subst t.
  exists g'. split; [exact Hrun |].
  split; [now apply shaped_grid_set |].
  unfold g'. repeat split.
  - intros Hdead.
    rewrite (cellAt_grid_set (rows w) (cols w)) by assumption.
    rewrite !Z.eqb_refl, Hdead. reflexivity.
  - intros v Hv Hpos.
    rewrite (cellAt_grid_set (rows w) (cols w)) by assumption.
    rewrite !Z.eqb_refl, Hv. cbn [andb]. unfold toggled, gt0.
    destruct (Z.ltb_spec 0 v); [reflexivity | lia].
  - intros i j Hother.
    rewrite (cellAt_grid_set (rows w) (cols w)) by assumption.
    destruct (Z.eqb_spec i row) as [->|]; [| reflexivity].
    destruct (Z.eqb_spec j col) as [->|]; [| reflexivity].
    congruence.
Qed.

Lemma toggleCell_flips_witness :
  wf clickedBlinker /\
  (2 < 0 \/ rows clickedBlinker <= 2 \/ 2 < 0 \/ cols clickedBlinker <= 2 ->
   toggleCell 2 2 clickedBlinker = ([], Ok (tt, clickedBlinker))) /\
  (0 <= 2 < rows clickedBlinker -> 0 <= 2 < cols clickedBlinker ->
   exists g',
     toggleCell 2 2 clickedBlinker = ([], Ok (tt, set_grid g' clickedBlinker)) /\
     shaped (rows clickedBlinker) (cols clickedBlinker) g' /\
     (cellAt (grid clickedBlinker) 2 2 = Some 0 -> cellAt g' 2 2 = Some 3) /\
     (forall v, cellAt (grid clickedBlinker) 2 2 = Some v -> 0 < v ->
                cellAt g' 2 2 = Some 0) /\
     (forall i j, (i, j) <> (2, 2) ->
                  cellAt g' i j = cellAt (grid clickedBlinker) i j)).
Proof.
  split; [exact wf_clickedBlinker |].
  exact (toggleCell_flips clickedBlinker 2 2 wf_clickedBlinker).
Defined.

(** C5.  Toggling a dead cell of the grid twice brings it from 0 to 3 and
    back to 0, and with it the whole state back to what it was; toggling
    outside the grid changes nothing. *)
Theorem toggleCell_twice w row col :
  wf w ->
  (0 <= row < rows w -> 0 <= col < cols w ->
   cellAt (grid w) row col = Some 0 ->
   exists w1,
     toggleCell row col w = ([], Ok (tt, w1)) /\
     cellAt (grid w1) row col = Some 3 /\
     toggleCell row col w1 = ([], Ok (tt, w)) /\
     cellAt (grid w) row col = Some 0) /\
  (row < 0 \/ rows w <= row \/ col < 0 \/ cols w <= col ->
   toggleCell row col w = ([], Ok (tt, w))).
Proof.
  intros Hwf. split; [| apply toggleCell_outside].
  intros Hrow Hcol Hdead. pose proof Hwf as (Hr & Hc & Hs).
  set (g1 := grid_set (grid w) row col (toggled (cellAt (grid w) row col))).
  assert (Hs1 : shaped (rows w) (cols w) g1) by now apply shaped_grid_set.
  assert (Hwf1 : wf (set_grid g1 w)) by exact (conj Hr (conj Hc Hs1)).
  assert (Hc1 : cellAt g1 row col = Some 3).
  { unfold g1. rewrite (cellAt_grid_set (rows w) (cols w)) by assumption.
    rewrite !Z.eqb_refl, Hdead. reflexivity. }
  destruct (wp_toggleCell_inside (fun _ => False) w row col
              (fun _ w' => w' = set_grid g1 w) Hwf Hrow Hcol eq_refl)
    as (t & [] & w' & Hrun & Ht & ->).
  apply no_events in Ht. subst t.
  destruct (wp_toggleCell_inside (fun _ => False) (set_grid g1 w) row col
              (fun _ w' => w' = set_grid
                 (grid_set g1 row col (toggled (cellAt g1 row col)))
                 (set_grid g1 w)) Hwf1 Hrow Hcol eq_refl)
    as (t & [] & w' & Hrun2 & Ht & ->).
  apply no_events in Ht. subst t.
  exists (set_grid g1 w). split; [exact Hrun |]. split; [exact Hc1 |].
  split; [| exact Hdead].
  rewrite Hrun2. do 3 f_equal.
  assert (Hback : grid_set g1 row col (toggled (cellAt g1 row col)) = grid w).
  { apply (grid_ext (rows w) (cols w)); [now apply shaped_grid_set | exact Hs |].
    intros i j Hi Hj.
    rewrite (cellAt_grid_set (rows w) (cols w)) by assumption.
    unfold g1 at 2.
    rewrite (cellAt_grid_set (rows w) (cols w)) by assumption.
    destruct ((i =? row) && (j =? col)) eqn:Hhere; [| reflexivity].
    apply andb_prop in Hhere. destruct Hhere as [Hi' Hj'].
    apply Z.eqb_eq in Hi', Hj'. subst. rewrite Hc1, Hdead. reflexivity. }
  rewrite Hback. destruct w; reflexivity.
Qed.

Lemma toggleCell_twice_witness :
  wf clickedBlinker /\
  (0 <= 0 < rows clickedBlinker -> 0 <= 0 < cols clickedBlinker ->
   cellAt (grid clickedBlinker) 0 0 = Some 0 ->
   exists w1,
     toggleCell 0 0 clickedBlinker = ([], Ok (tt, w1)) /\
     cellAt (grid w1) 0 0 = Some 3 /\
     toggleCell 0 0 w1 = ([], Ok (tt, clickedBlinker)) /\
     cellAt (grid clickedBlinker) 0 0 = Some 0) /\
  (0 < 0 \/ rows clickedBlinker <= 0 \/ 0 < 0 \/ cols clickedBlinker <= 0 ->
   toggleCell 0 0 clickedBlinker = ([], Ok (tt, clickedBlinker))).
Proof.
  split; [exact wf_clickedBlinker |].
  exact (toggleCell_twice clickedBlinker 0 0 wf_clickedBlinker).
Defined.

(** C6.  For canvas dimensions the element can report, [resizeCanvas]
    returns normally, sets [cols] and [rows] to the new extents, and rebinds
    [grid] to a grid of the new shape in which the cells of the overlap with
    the old grid hold the old values and every other cell is 0.  Growing in
    both directions therefore keeps every old cell where it was, with the
    cells outside the old grid dead, and shrinking keeps the cells that
    still fit, reading nothing outside either grid. *)
Theorem resizeCanvas_preserves w canvasWidth canvasHeight :
  wf w ->
  0 <= canvasWidth < 4294967296 -> 0 <= canvasHeight < 4294967296 ->
  let newCols := canvasWidth / CELL_SIZE in
  let newRows := canvasHeight / CELL_SIZE in
  exists t g',
    resizeCanvas canvasWidth canvasHeight w =
      (t, Ok (tt, set_grid g' (set_rows newRows (set_cols newCols w)))) /\
    resized (rows w) (cols w) newRows newCols (grid w) g' /\
    (rows w < newRows -> cols w < newCols ->
     forall i j, 0 <= i < newRows -> 0 <= j < newCols ->
       cellAt g' i j =
       if (i <? rows w) && (j <? cols w) then cellAt (grid w) i j
       else Some 0) /\
    (newRows <= rows w -> newCols <= cols w ->
     forall i j, 0 <= i < newRows -> 0 <= j < newCols ->
       cellAt g' i j = cellAt (grid w) i j).
Proof.
  intros Hwf HW HH newCols newRows.
  destruct (wp_resizeCanvas w canvasWidth canvasHeight
              (fun _ w' => exists g',
                 w' = set_grid g' (set_rows newRows (set_cols newCols w)) /\
                 resized (rows w) (cols w) newRows newCols (grid w) g')
              Hwf HW HH)
    as (t & [] & w' & Hrun & _ & g' & -> & Hres).
  { intros g' Hg'. exists g'. split; [reflexivity | exact Hg']. }
  exists t, g'. split; [exact Hrun |]. split; [exact Hres |].
  destruct Hres as [_ Hcells]. split.
  - intros Hgrow_r Hgrow_c i j Hi Hj. rewrite Hcells by assumption. zcases.
  - intros Hshrink_r Hshrink_c i j Hi Hj. rewrite Hcells by assumption. zcases.
Qed.

Lemma resizeCanvas_preserves_witness :
  wf clickedBlinker /\ 0 <= 75 < 4294967296 /\ 0 <= 65 < 4294967296 /\
  let newCols := 75 / CELL_SIZE in
  let newRows := 65 / CELL_SIZE in
  exists t g',
    resizeCanvas 75 65 clickedBlinker =
      (t, Ok (tt, set_grid g'
                    (set_rows newRows (set_cols newCols clickedBlinker)))) /\
    resized (rows clickedBlinker) (cols clickedBlinker) newRows newCols
      (grid clickedBlinker) g' /\
    (rows clickedBlinker < newRows -> cols clickedBlinker < newCols ->
     forall i j, 0 <= i < newRows -> 0 <= j < newCols ->
       cellAt g' i j =
       if (i <? rows clickedBlinker) && (j <? cols clickedBlinker)
       then cellAt (grid clickedBlinker) i j
       else Some 0) /\
    (newRows <= rows clickedBlinker -> newCols <= cols clickedBlinker ->
     forall i j, 0 <= i < newRows -> 0 <= j < newCols ->
       cellAt g' i j = cellAt (grid clickedBlinker) i j).
Proof.
  split; [exact wf_clickedBlinker |]. split; [lia |]. split; [lia |].
  apply (resizeCanvas_preserves clickedBlinker 75 65);
    [exact wf_clickedBlinker | lia | lia].
Defined.

(** C7.  When [rows] or [cols] is 0, [computeNextGeneration] returns
    normally without performing any effect, so no remainder is evaluated
    (with a zero divisor or otherwise), and it leaves the state, with its
    grid without cells, as it was. *)
Theorem computeNextGeneration_zero_extent w :
  wf w -> rows w = 0 \/ cols w = 0 ->
  computeNextGeneration w = ([], Ok (tt, w)) /\
  grid w = emptyGrid (rows w) (cols w).
Proof.
  intros Hwf Hzero. pose proof Hwf as (Hr & Hc & Hs).
  assert (Hempty : grid w = emptyGrid (rows w) (cols w)).
  { apply (grid_ext (rows w) (cols w));
      [exact Hs | apply shaped_emptyGrid; lia |].
    intros i j Hi Hj. lia. }
  split; [| exact Hempty].
  assert (Hrun : wp (fun _ => False) computeNextGeneration w
                   (fun _ w' => w' = w)).
  { unfold computeNextGeneration.
    apply wp_bind, wp_createEmptyGrid; [exact Hr | exact Hc |].
    apply wp_bind, wp_gets. apply wp_bind.
    apply wp_for_range with
      (I := fun _ ng w1 => w1 = w /\ ng = emptyGrid (rows w) (cols w)).
    - lia.
    - split; reflexivity.
    - intros i ng w1 Hi [-> ->]. apply wp_bind, wp_gets.
      apply wp_for_range with
        (I := fun _ ng w1 => w1 = w /\ ng = emptyGrid (rows w) (cols w)).
      + lia.
      + split; reflexivity.
      + intros j ng w1 Hj _. lia.
      + auto.
    - intros ng w1 [-> ->]. apply wp_modify.
      rewrite <- Hempty. destruct w; reflexivity. }
  destruct Hrun as (t & [] & w' & Hrun & Ht & ->).
  apply no_events in Ht. now subst t.
Qed.

Lemma computeNextGeneration_zero_extent_witness :
  wf (initialWorld zeroDraws) /\
  (rows (initialWorld zeroDraws) = 0 \/ cols (initialWorld zeroDraws) = 0) /\
  computeNextGeneration (initialWorld zeroDraws) =
    ([], Ok (tt, initialWorld zeroDraws)) /\
  grid (initialWorld zeroDraws) =
    emptyGrid (rows (initialWorld zeroDraws)) (cols (initialWorld zeroDraws)).
Proof.
  assert (Hwf : wf (initialWorld zeroDraws)).
  { split; [cbn; lia |]. split; [cbn; lia |].
    split; [reflexivity | constructor]. }
  split; [exact Hwf |]. split; [left; reflexivity |].
  apply (computeNextGeneration_zero_extent (initialWorld zeroDraws));
    [exact Hwf | left; reflexivity].
Defined.

(** C8.  In every state the script can reach from its initial variables,
    by any sequence of resizes, animation frames, button and slider events,
    clicks, and bare generation steps, toggles and randomisations, the grid
    is [rows] by [cols] and every one of its cells holds 0, 2 or 3. *)
Theorem reachable_cells_0_2_3 w :
  reachable w ->
  shaped (rows w) (cols w) (grid w) /\
  forall i j v, cellAt (grid w) i j = Some v -> v = 0 \/ v = 2 \/ v = 3.
Proof.
  intros Hreach. destruct (reachable_healthy w Hreach) as [(_ & _ & Hs) Hc].
  split; [exact Hs | exact Hc].
Qed.

Lemma reachable_cells_0_2_3_witness :
  reachable clickedBlinker /\
  shaped (rows clickedBlinker) (cols clickedBlinker) (grid clickedBlinker) /\
  forall i j v, cellAt (grid clickedBlinker) i j = Some v ->
                v = 0 \/ v = 2 \/ v = 3.
Proof.
  split; [exact reachable_clickedBlinker |].
  exact (reachable_cells_0_2_3 clickedBlinker reachable_clickedBlinker).
Defined.

(** C10, as stated, fails: a blinker the user has drawn stores 3, 3, 3, and
    two generations later its centre stores 2, so the grid is not the one
    the run started from. *)
Lemma blinker_values_counterexample :
  (toggleCell 2 1 ;; toggleCell 2 2 ;; toggleCell 2 3) emptyFive =
    ([], Ok (tt, clickedBlinker)) /\
  depicts 5 5 (grid clickedBlinker) (hBlinker 5 2 2 3 3 3) /\
  exists w1 w2,
    snd (computeNextGeneration clickedBlinker) = Ok (tt, w1) /\
    snd (computeNextGeneration w1) = Ok (tt, w2) /\
    cellAt (grid clickedBlinker) 2 2 = Some 3 /\
    cellAt (grid w2) 2 2 = Some 2 /\
    grid w2 <> grid clickedBlinker.
Proof.
  split; [vm_compute; reflexivity |]. split.
  - exact clickedBlinker_depicts.
  - eexists. eexists. split; [vm_compute; reflexivity |].
    split; [vm_compute; reflexivity |].
    split; [reflexivity |]. split; [reflexivity |]. discriminate.
Qed.

(** C10, amended.  On a grid with at least 4 rows and 4 columns, a row of
    three adjacent live cells, whatever positive values they store, becomes
    after one [computeNextGeneration] the column of three through its centre
    storing 3, 2, 3, and after the next the row again, storing 3, 2, 3: the
    same cells are alive as at the start, and the state is the one the run
    started from exactly when the row stored 3, 2, 3. *)
Theorem blinker_oscillates w r c a b d :
  wf w -> 4 <= rows w -> 4 <= cols w ->
  0 <= r < rows w -> 0 <= c < cols w ->
  0 < a -> 0 < b -> 0 < d ->
  depicts (rows w) (cols w) (grid w) (hBlinker (cols w) r c a b d) ->
  exists t1 w1 t2 w2,
    computeNextGeneration w = (t1, Ok (tt, w1)) /\
    depicts (rows w) (cols w) (grid w1) (vBlinker (rows w) r c 3 2 3) /\
    computeNextGeneration w1 = (t2, Ok (tt, w2)) /\
    depicts (rows w) (cols w) (grid w2) (hBlinker (cols w) r c 3 2 3) /\
    (forall i j, alive (grid w2) i j = alive (grid w) i j) /\
    (w2 = w <-> a = 3 /\ b = 2 /\ d = 3).
Proof.
  intros Hwf Hn Hm Hr Hc Ha Hb Hd Hg.
  pose proof Hwf as (Hrows & Hcols & Hs).
  destruct (wp_computeNextGeneration w
              (fun _ w' => exists g', w' = set_grid g' w /\
                 nextGeneration (rows w) (cols w) (grid w) g') Hwf)
    as (t1 & [] & w1 & Hrun1 & _ & g1 & -> & Hnext1).
  { intros g' Hg'. exists g'. split; [reflexivity | exact Hg']. }
  pose proof (hBlinker_generation _ _ _ _ _ _ _ _ _
                Hn Hm Hr Hc Ha Hb Hd Hg Hnext1) as Hg1.
  assert (Hwf1 : wf (set_grid g1 w))
    by exact (conj Hrows (conj Hcols (proj1 Hg1))).
  destruct (wp_computeNextGeneration (set_grid g1 w)
              (fun _ w' => exists g', w' = set_grid g' w /\
                 nextGeneration (rows w) (cols w) g1 g') Hwf1)
    as (t2 & [] & w2 & Hrun2 & _ & g2 & -> & Hnext2).
  { intros g' Hg'. exists g'. split; [reflexivity | exact Hg']. }
  pose proof (vBlinker_generation _ _ _ _ 3 2 3 _ _
                Hn Hm Hr Hc ltac:(lia) ltac:(lia) ltac:(lia) Hg1 Hnext2)
    as Hg2.
  exists t1, (set_grid g1 w), t2, (set_grid g2 w).
  split; [exact Hrun1 |]. split; [exact Hg1 |].
  split; [exact Hrun2 |]. split; [exact Hg2 |].
  cbn [grid set_grid]. split.
  - intros i j.
    destruct (Z_lt_dec i 0) as [|Hi0];
      [unfold alive; now rewrite !(cellAt_outside (rows w) (cols w))
         by (apply Hg2 || apply Hs || lia) |].
    destruct (Z_le_dec (rows w) i) as [|Hi1];
      [unfold alive; now rewrite !(cellAt_outside (rows w) (cols w))
         by (apply Hg2 || apply Hs || lia) |].
    destruct (Z_lt_dec j 0) as [|Hj0];
      [unfold alive; now rewrite !(cellAt_outside (rows w) (cols w))
         by (apply Hg2 || apply Hs || lia) |].
    destruct (Z_le_dec (cols w) j) as [|Hj1];
      [unfold alive; now rewrite !(cellAt_outside (rows w) (cols w))
         by (apply Hg2 || apply Hs || lia) |].
    rewrite (alive_depicts _ _ _ _ i j Hg2) by lia.
    rewrite (alive_depicts _ _ _ _ i j Hg) by lia.
    unfold hBlinker. zprune.
  - destruct Hg as [_ Hcells], Hg2 as [Hs2 Hcells2]. split.
    + intros Hsame.
      assert (Hgrid : g2 = grid w) by exact (f_equal grid Hsame).
      assert (Hat : forall j, 0 <= j < cols w ->
                hBlinker (cols w) r c 3 2 3 r j =
                hBlinker (cols w) r c a b d r j).
      { intros j Hj.
        pose proof (Hcells r j Hr Hj) as H1.
        rewrite <- Hgrid, Hcells2 in H1 by assumption. congruence. }
      assert (Hm0 : 0 < cols w) by lia.
      pose proof (Hat ((c - 1) mod cols w)
                    (Z.mod_pos_bound (c - 1) (cols w) Hm0)) as H1.
      pose proof (Hat c Hc) as H2.
      pose proof (Hat ((c + 1) mod cols w)
                    (Z.mod_pos_bound (c + 1) (cols w) Hm0)) as H3.
      unfold hBlinker in H1, H2, H3.
      rewrite (wrap_pred (cols w) c), (wrap_succ (cols w) c) in H1, H2, H3
        by lia.
      rewrite !Z.eqb_refl in H1, H2, H3.
      revert H1 H2 H3.
      settle_eqb c 0; settle_eqb c (cols w - 1); zprune; lia.
    + intros (-> & -> & ->).
      assert (Hgrid : g2 = grid w).
      { apply (grid_ext (rows w) (cols w)); [exact Hs2 | exact Hs |].
        intros i j Hi Hj. now rewrite Hcells, Hcells2. }
      rewrite Hgrid. destruct w; reflexivity.
Qed.

Lemma blinker_oscillates_witness :
  wf clickedBlinker /\
  4 <= rows clickedBlinker /\ 4 <= cols clickedBlinker /\
  0 <= 2 < rows clickedBlinker /\ 0 <= 2 < cols clickedBlinker /\
  0 < 3 /\
  depicts (rows clickedBlinker) (cols clickedBlinker) (grid clickedBlinker)
    (hBlinker (cols clickedBlinker) 2 2 3 3 3) /\
  exists t1 w1 t2 w2,
    computeNextGeneration clickedBlinker = (t1, Ok (tt, w1)) /\
    depicts (rows clickedBlinker) (cols clickedBlinker) (grid w1)
      (vBlinker (rows clickedBlinker) 2 2 3 2 3) /\
    computeNextGeneration w1 = (t2, Ok (tt, w2)) /\
    depicts (rows clickedBlinker) (cols clickedBlinker) (grid w2)
      (hBlinker (cols clickedBlinker) 2 2 3 2 3) /\
    (forall i j, alive (grid w2) i j = alive (grid clickedBlinker) i j) /\
    (w2 = clickedBlinker <-> 3 = 3 /\ 3 = 2 /\ 3 = 3).
Proof.
  split; [exact wf_clickedBlinker |].
  split; [cbn; lia |]. split; [cbn; lia |].
  split; [cbn; lia |]. split; [cbn; lia |]. split; [lia |].
  split; [exact clickedBlinker_depicts |].
  apply (blinker_oscillates clickedBlinker 2 2 3 3 3);
    [exact wf_clickedBlinker | cbn; lia | cbn; lia | cbn; lia | cbn; lia
    | lia | lia | lia | exact clickedBlinker_depicts].
Defined.

(* ===================================================================== *)
(** ** Lemmas on the kinds of effects *)
(* ===================================================================== *)

Lemma fst_bind {A B : Type} (m : M A) (f : A -> M B) w :
  fst (bind m f w) =
  match m w with
  | (t1, Ok (a, w1)) => t1 ++ fst (f a w1)
  | (t1, Throw _) => t1
  end.
Proof.
  unfold bind. destruct (m w) as [t1 [[a w1] | e]]; [| reflexivity].
  destruct (f a w1); reflexivity.
Qed.

Lemma emits_ret {A : Type} P (a : A) : emits P (ret a).
Proof. intros w. constructor. Qed.

Lemma emits_throw {A : Type} P e : emits P (@throw A e).
Proof. intros w. constructor. Qed.

Lemma emits_gets {A : Type} P (f : World -> A) : emits P (gets f).
Proof. intros w. constructor. Qed.

Lemma emits_modify P f : emits P (modify f).
Proof. intros w. constructor. Qed.

Lemma emits_emit (P : Event -> Prop) ev : P ev -> emits P (emit ev).
Proof. intros HP w. cbn. auto. Qed.

Lemma emits_bind {A B : Type} P (m : M A) (f : A -> M B) :
  emits P m -> (forall a, emits P (f a)) -> emits P (bind m f).
Proof.
  intros Hm Hf w. rewrite fst_bind. specialize (Hm w).
  destruct (m w) as [t1 [[a w1] | e]]; cbn [fst] in Hm; [| exact Hm].
  apply Forall_app. split; [exact Hm | apply Hf].
Qed.

Lemma emits_for_loop {S : Type} P (body : Z -> S -> M S) n :
  (forall i s, emits P (body i s)) ->
  forall lo s, emits P (for_loop n lo body s).
Proof.
  intros Hbody. induction n as [|n IH]; intros lo s; cbn [for_loop].
  - apply emits_ret.
  - apply emits_bind; [apply Hbody | intros s'; apply IH].
Qed.

Lemma emits_for_range {S : Type} P (body : Z -> S -> M S) lo hi s :
  (forall i s, emits P (body i s)) -> emits P (for_range lo hi body s).
Proof. intros Hbody. unfold for_range. now apply emits_for_loop. Qed.

Lemma emits_mapM {A B : Type} P (f : A -> M B) xs :
  (forall x, emits P (f x)) -> emits P (mapM f xs).
Proof.
  intros Hf. induction xs as [|x xs IH]; cbn [mapM].
  - apply emits_ret.
  - apply emits_bind; [apply Hf |]. intros y.
    apply emits_bind; [exact IH |]. intros ys. apply emits_ret.
Qed.

(** Building blocks that perform no effect at all. *)
Lemma emits_read2 P g r c : emits P (read2 g r c).
Proof.
  unfold read2. destruct (elem g r); [apply emits_ret | apply emits_throw].
Qed.

Lemma emits_write2 P g r c v : emits P (write2 g r c v).
Proof.
  unfold write2. destruct (elem g (Int r)); [| apply emits_throw].
  destruct (_ && _); [apply emits_ret | apply emits_throw].
Qed.

Lemma emits_store2 P r c v : emits P (store2 r c v).
Proof.
  unfold store2. apply emits_bind; [apply emits_gets |]. intros g.
  apply emits_bind; [apply emits_write2 |]. intros g'. apply emits_modify.
Qed.

Lemma emits_js_Array {A : Type} P n (x : A) : emits P (js_Array n x).
Proof.
  unfold js_Array. destruct (_ && _); [apply emits_ret | apply emits_throw].
Qed.

Lemma emits_createEmptyGrid P : emits P createEmptyGrid.
Proof.
  unfold createEmptyGrid. apply emits_bind; [apply emits_gets |]. intros r.
  apply emits_bind; [apply emits_js_Array |]. intros sk.
  apply emits_mapM. intros _.
  apply emits_bind; [apply emits_gets |]. intros c. apply emits_js_Array.
Qed.

Lemma emits_js_rem a b : emits isRemainder (js_rem a b).
Proof.
  unfold js_rem. apply emits_bind; [now apply emits_emit |].
  intros _. apply emits_ret.
Qed.

Lemma emits_countNeighbors row col :
  emits isRemainder (countNeighbors row col).
Proof.
  unfold countNeighbors. apply emits_for_range. intros i count.
  apply emits_for_range. intros j count'. unfold probeNeighbor.
  destruct (_ && _); [apply emits_ret |].
  apply emits_bind; [apply emits_gets |]. intros rs.
  apply emits_bind; [apply emits_js_rem |]. intros nr.
  apply emits_bind; [apply emits_gets |]. intros cs.
  apply emits_bind; [apply emits_js_rem |]. intros nc.
  apply emits_bind; [apply emits_gets |]. intros g.
  apply emits_bind; [apply emits_read2 |]. intros v.
  destruct (gt0 v); apply emits_ret.
Qed.

Lemma emits_computeNextGeneration : emits isRemainder computeNextGeneration.
Proof.
  unfold computeNextGeneration.
  apply emits_bind; [apply emits_createEmptyGrid |]. intros g0.
  apply emits_bind; [apply emits_gets |]. intros rs.
  apply emits_bind; [| intros ng; apply emits_modify].
  apply emits_for_range. intros i ng.
  apply emits_bind; [apply emits_gets |]. intros cs.
  apply emits_for_range. intros j ng'.
  apply emits_bind; [apply emits_countNeighbors |]. intros n.
  apply emits_bind; [apply emits_gets |]. intros g.
  apply emits_bind; [apply emits_read2 |]. intros v. cbv zeta.
  destruct (_ && _); [apply emits_write2 |].
  destruct (_ && _); [apply emits_write2 | apply emits_ret].
Qed.

Lemma emits_draw : emits isPainting draw.
Proof.
  unfold draw. apply emits_bind; [now apply emits_emit |]. intros _.
  apply emits_bind; [apply emits_gets |]. intros rs.
  apply emits_for_range. intros i [].
  apply emits_bind; [apply emits_gets |]. intros cs.
  apply emits_for_range. intros j [].
  apply emits_bind; [apply emits_gets |]. intros g.
  apply emits_bind; [apply emits_read2 |]. intros [value|];
    [| apply emits_ret].
  destruct (0 <? value); [now apply emits_emit | apply emits_ret].
Qed.

(* ===================================================================== *)
(** ** Lemmas on painting *)
(* ===================================================================== *)

Lemma in_indicesFrom n : forall lo i,
  In i (indicesFrom n lo) <-> lo <= i < lo + Z.of_nat n.
Proof.
  induction n as [|n IH]; intros lo i; cbn [indicesFrom In].
  - lia.
  - rewrite IH. lia.
Qed.

Lemma in_indices lo hi i : In i (indices lo hi) <-> lo <= i < hi.
Proof. unfold indices. rewrite in_indicesFrom. lia. Qed.

(** A loop that keeps the state: its effects are those of its iterations,
    in order. *)
Lemma for_loop_effects (body : Z -> unit -> M unit) (T : Z -> list Event) w n :
  forall lo,
    (forall i, lo <= i < lo + Z.of_nat n -> body i tt w = (T i, Ok (tt, w))) ->
    for_loop n lo body tt w = (flat_map T (indicesFrom n lo), Ok (tt, w)).
Proof.
  induction n as [|n IH]; intros lo Hbody; cbn [for_loop indicesFrom flat_map].
  - reflexivity.
  - unfold bind. rewrite Hbody by lia. rewrite IH; [reflexivity |].
    intros i Hi. apply Hbody. lia.
Qed.

Lemma for_range_effects (body : Z -> unit -> M unit) (T : Z -> list Event)
    w lo hi :
  (forall i, lo <= i < hi -> body i tt w = (T i, Ok (tt, w))) ->
  for_range lo hi body tt w = (flat_map T (indices lo hi), Ok (tt, w)).
Proof.
  intros Hbody. unfold for_range, indices. apply for_loop_effects.
  intros i Hi. apply Hbody. lia.
Qed.

Lemma draw_effects w :
  wf w ->
  draw w =
    (EvClearCanvas :: gridPaints (grid w) (rows w) (cols w), Ok (tt, w)).
Proof.
  intros (Hr & Hc & Hs). unfold draw.
  assert (Hloops :
    for_range 0 (rows w) (fun i _ =>
      bind (gets cols) (fun cs =>
        for_range 0 cs (fun j _ =>
          bind (gets grid) (fun g =>
            bind (read2 g (Int i) (Int j)) (fun cellValue =>
              match cellValue with
              | Some value =>
                  if 0 <? value
                  then emit (EvRoundedRect (j * CELL_SIZE) (i * CELL_SIZE)
                               CELL_SIZE CELL_SIZE CELL_RADIUS
                               (getColorForNeighborCount value))
                  else ret tt
              | None => ret tt
              end))) tt)) tt w =
    (gridPaints (grid w) (rows w) (cols w), Ok (tt, w))).
  { unfold gridPaints. apply for_range_effects. intros i Hi.
    unfold bind at 1, gets at 1. cbv beta iota.
    unfold rowPaints.
    rewrite (for_range_effects _
               (fun j => cellPaint i j (cellAt (grid w) i j))).
    - reflexivity.
    - intros j Hj. unfold bind at 1, gets at 1. cbv beta iota.
      destruct (shaped_row _ _ _ i Hs Hi) as (line & Hline & _).
      unfold bind, read2, cellAt. rewrite Hline. unfold ret. cbv beta iota.
      unfold cellPaint.
      destruct (elem line (Int j)) as [value|]; [| reflexivity].
      destruct (0 <? value); reflexivity. }
  unfold bind at 1, emit at 1. cbv beta iota.
  unfold bind at 1, gets at 1. cbv beta iota.
  rewrite Hloops. reflexivity.
Qed.

Lemma in_gridPaints g rs cs ev :
  In ev (gridPaints g rs cs) ->
  exists i j, 0 <= i < rs /\ 0 <= j < cs /\ In ev (cellPaint i j (cellAt g i j)).
Proof.
  unfold gridPaints, rowPaints. intros Hin.
  apply in_flat_map in Hin. destruct Hin as (i & Hi & Hin).
  apply in_flat_map in Hin. destruct Hin as (j & Hj & Hin).
  apply in_indices in Hi, Hj. eauto.
Qed.

(* ===================================================================== *)
(** ** Lemmas on still lifes and lone cells *)
(* ===================================================================== *)

Lemma wrappedNeighbors_no_life r c g row col :
  (forall i j, alive g i j = false) -> wrappedNeighbors r c g row col = 0.
Proof.
  intros Hdead. rewrite wrappedNeighbors_sum. now rewrite !Hdead.
Qed.

Lemma alive_emptyGrid r c i j : alive (emptyGrid r c) i j = false.
Proof.
  unfold alive, cellAt, emptyGrid.
  destruct (elem _ (Int i)) as [line|] eqn:Hline; [| reflexivity].
  cbn in Hline. destruct (0 <=? i); [| discriminate].
  apply lookup_replicate in Hline. destruct Hline as [-> _].
  cbn. destruct (0 <=? j); [| reflexivity].
  destruct (replicate _ 0 !! Z.to_nat j) as [v|] eqn:Hv; [| reflexivity].
  apply lookup_replicate in Hv. destruct Hv as [-> _]. reflexivity.
Qed.

Lemma depicts_allDead n m g :
  0 <= n -> 0 <= m -> depicts n m g allDead -> g = emptyGrid n m.
Proof.
  intros Hn Hm [Hs Hcells].
  apply (grid_ext n m); [exact Hs | now apply shaped_emptyGrid |].
  intros i j Hi Hj. rewrite Hcells, cellAt_emptyGrid by assumption.
  reflexivity.
Qed.

Lemma loneCell_generation n m r c a g g' :
  2 <= n -> 2 <= m -> 0 <= r < n -> 0 <= c < m -> 0 < a ->
  depicts n m g (loneCell r c a) ->
  nextGeneration n m g g' ->
  depicts n m g' allDead.
Proof.
  intros Hn Hm Hr Hc Ha Hg [Hs' Hcells].
  split; [exact Hs' |]. intros i j Hi Hj.
  rewrite Hcells by assumption. f_equal.
  rewrite (wrappedNeighbors_depicts n m g _ i j Hg Hi Hj).
  destruct Hg as [_ Hg]. rewrite Hg by assumption. clear Hg Hcells Hs'.
  cbv zeta. unfold loneCell, allDead.
  settle_ltb (i + -1) 0; settle_leb n (i + 1);
    settle_ltb (j + -1) 0; settle_leb m (j + 1).
  all: zprune_on r.
  all: unfold nextCell, gt0; cbn.
  all: repeat zprune_step.
  all: try reflexivity; try lia.
Qed.

Lemma loneCell_one_row m c a g g' :
  3 <= m -> 0 <= c < m -> 0 < a ->
  depicts 1 m g (loneCell 0 c a) ->
  nextGeneration 1 m g g' ->
  depicts 1 m g' (hBlinker m 0 c 3 2 3).
Proof.
  intros Hm Hc Ha Hg [Hs' Hcells].
  split; [exact Hs' |]. intros i j Hi Hj.
  rewrite Hcells by assumption. f_equal.
  rewrite (wrappedNeighbors_depicts 1 m g _ i j Hg Hi Hj).
  destruct Hg as [_ Hg]. rewrite Hg by assumption. clear Hg Hcells Hs'.
  cbv zeta. unfold loneCell, hBlinker.
  rewrite (wrap_pred m c), (wrap_succ m c) by lia.
  settle_ltb (i + -1) 0; settle_leb 1 (i + 1);
    settle_ltb (j + -1) 0; settle_leb m (j + 1);
    settle_eqb c 0; settle_eqb c (m - 1).
  all: repeat zprune_step.
  all: unfold nextCell, gt0; cbn.
  all: repeat zprune_step.
  all: try reflexivity; try lia.
Qed.

Lemma block_generation n m r c a b d e g g' :
  4 <= n -> 4 <= m -> 0 <= r < n -> 0 <= c < m ->
  0 < a -> 0 < b -> 0 < d -> 0 < e ->
  depicts n m g (block n m r c a b d e) ->
  nextGeneration n m g g' ->
  depicts n m g' (block n m r c 3 3 3 3).
Proof.
  intros Hn Hm Hr Hc Ha Hb Hd He Hg [Hs' Hcells].
  split; [exact Hs' |]. intros i j Hi Hj.
  rewrite Hcells by assumption. f_equal.
  rewrite (wrappedNeighbors_depicts n m g _ i j Hg Hi Hj).
  destruct Hg as [_ Hg]. rewrite Hg by assumption. clear Hg Hcells Hs'.
  cbv zeta. unfold block.
  rewrite (wrap_succ n r), (wrap_succ m c) by lia.
  settle_ltb (i + -1) 0; settle_leb n (i + 1);
    settle_eqb r (n - 1).
  all: settle_all_eqb r.
  all: settle_all_eqb (r + 1).
  all: settle_all_eqb 0.
  all: settle_ltb (j + -1) 0; settle_leb m (j + 1);
    settle_eqb c (m - 1).
  all: repeat zprune_step.
  all: unfold nextCell, gt0; cbn.
  all: repeat zprune_step.
  all: try reflexivity; try lia.
Qed.

Lemma run_generation w :
  wf w ->
  exists t g',
    computeNextGeneration w = (t, Ok (tt, set_grid g' w)) /\
    nextGeneration (rows w) (cols w) (grid w) g'.
Proof.
  intros Hwf.
  destruct (wp_computeNextGeneration w
              (fun _ w' => exists g', w' = set_grid g' w /\
                 nextGeneration (rows w) (cols w) (grid w) g') Hwf)
    as (t & [] & w' & Hrun & _ & g' & -> & Hnext).
  { intros g' Hg'. exists g'. split; [reflexivity | exact Hg']. }
  exists t, g'. split; [exact Hrun | exact Hnext].
Qed.

Lemma depicts_unique n m g g' f :
  depicts n m g f -> depicts n m g' f -> g = g'.
Proof.
  intros [Hs Hc] [Hs' Hc']. apply (grid_ext n m); [exact Hs | exact Hs' |].
  intros i j Hi Hj. now rewrite Hc, Hc'.
Qed.

Lemma set_grid_same w : set_grid (grid w) w = w.
Proof. destruct w; reflexivity. Qed.

Lemma bind_returns {A B : Type} (m : M A) (f : A -> M B) w t1 a w1 t2 r :
  m w = (t1, Ok (a, w1)) -> f a w1 = (t2, r) -> bind m f w = (t1 ++ t2, r).
Proof. intros Hm Hf. unfold bind. now rewrite Hm, Hf. Qed.

(** One probe of [countNeighbors] when an extent is 0. *)
Lemma probeNeighbor_no_rows w row col i j count :
  rows w = 0 -> (i =? 0) && (j =? 0) = false ->
  probeNeighbor row col i j count w =
    ([EvRemainder (row + i + 0) 0; EvRemainder (col + j + cols w) (cols w)],
     Throw TypeError).
Proof.
  intros Hrows Hoff. unfold probeNeighbor. rewrite Hoff.
  cbv [bind gets js_rem emit ret]. rewrite Hrows.
  cbn [Z.eqb]. unfold read2. cbn [elem throw app]. reflexivity.
Qed.

Lemma probeNeighbor_no_cols w row col i j count :
  wf w -> 0 <= row < rows w -> cols w = 0 -> -1 <= i <= 1 ->
  (i =? 0) && (j =? 0) = false ->
  probeNeighbor row col i j count w =
    ([EvRemainder (row + i + rows w) (rows w); EvRemainder (col + j + 0) 0],
     Ok (count, w)).
Proof.
  intros (Hr & Hc & Hs) Hrow Hcols Hi Hoff. unfold probeNeighbor. rewrite Hoff.
  cbv [bind gets js_rem emit ret].
  destruct (Z.eqb_spec (rows w) 0); [lia |].
  rewrite Hcols. cbn [Z.eqb].
  rewrite Z.rem_mod_nonneg by lia.
  pose proof (Z.mod_pos_bound (row + i + rows w) (rows w) ltac:(lia)) as Hb.
  destruct (shaped_row _ _ _ _ Hs Hb) as (line & Hline & Hlen).
  unfold read2. rewrite Hline. cbn [elem gt0 ret app]. reflexivity.
Qed.

(* ===================================================================== *)
(** ** Further properties: the grid engine *)
(* ===================================================================== *)

(** X1.  With extents an array can have, [createEmptyGrid] returns a
    [rows] by [cols] grid of zeros, changes no variable and performs no
    effect.  With [rows = 0] it returns the empty array whatever [cols] is
    (the row constructor is never run); with a [rows] no array can have, or
    with at least one row and such a [cols], it throws a [RangeError]. *)
Theorem createEmptyGrid_all_dead w :
  (0 <= rows w < 4294967296 -> 0 <= cols w < 4294967296 ->
   exists g,
     createEmptyGrid w = ([], Ok (g, w)) /\
     shaped (rows w) (cols w) g /\
     forall i j, 0 <= i < rows w -> 0 <= j < cols w -> cellAt g i j = Some 0) /\
  (rows w = 0 -> createEmptyGrid w = ([], Ok ([], w))) /\
  (rows w < 0 \/ 4294967296 <= rows w ->
   createEmptyGrid w = ([], Throw RangeError)) /\
  (0 < rows w < 4294967296 -> cols w < 0 \/ 4294967296 <= cols w ->
   createEmptyGrid w = ([], Throw RangeError)).
Proof.
  repeat split.
  - intros Hr Hc.
    destruct (wp_createEmptyGrid (fun _ => False) w
                (fun g w' => w' = w /\ g = emptyGrid (rows w) (cols w))
                Hr Hc (conj eq_refl eq_refl))
      as (t & g & w' & Hrun & Ht & -> & ->).
    apply no_events in Ht. subst t.
    exists (emptyGrid (rows w) (cols w)). split; [exact Hrun |].
    split; [apply shaped_emptyGrid; lia |].
    intros i j Hi Hj. now apply cellAt_emptyGrid.
  - intros Hr. unfold createEmptyGrid, bind, gets, js_Array. rewrite Hr.
    reflexivity.
  - intros Hr. unfold createEmptyGrid, bind, gets, js_Array.
    destruct (Z.leb_spec 0 (rows w)); cbn [andb]; [| reflexivity].
    destruct (Z.ltb_spec (rows w) (2 ^ 32)); [lia | reflexivity].
  - intros Hr Hc. unfold createEmptyGrid, bind, gets, js_Array.
    destruct (Z.leb_spec 0 (rows w)); [| lia].
    destruct (Z.ltb_spec (rows w) (2 ^ 32)); [| lia].
    cbn [andb ret]. cbv beta iota.
    destruct (Z.to_nat (rows w)) as [|k] eqn:Hk; [lia |].
    cbn [replicate mapM]. unfold bind, gets.
    destruct (Z.leb_spec 0 (cols w)); cbn [andb]; [| reflexivity].
    destruct (Z.ltb_spec (cols w) (2 ^ 32)); [lia | reflexivity].
Qed.

Lemma createEmptyGrid_all_dead_witness :
  (exists g,
     createEmptyGrid clickedBlinker = ([], Ok (g, clickedBlinker)) /\
     shaped (rows clickedBlinker) (cols clickedBlinker) g /\
     forall i j, 0 <= i < rows clickedBlinker -> 0 <= j < cols clickedBlinker ->
       cellAt g i j = Some 0) /\
  createEmptyGrid (set_cols (-1) (initialWorld zeroDraws)) =
    ([], Ok ([], set_cols (-1) (initialWorld zeroDraws))) /\
  createEmptyGrid (set_rows 4294967296 clickedBlinker) =
    ([], Throw RangeError) /\
  createEmptyGrid (set_cols (-1) clickedBlinker) = ([], Throw RangeError).
Proof.
  split; [| split; [| split]].
  - apply (proj1 (createEmptyGrid_all_dead clickedBlinker));
      vm_compute; intuition discriminate.
  - apply (proj1 (proj2 (createEmptyGrid_all_dead
                           (set_cols (-1) (initialWorld zeroDraws))))).
    reflexivity.
  - apply (proj1 (proj2 (proj2 (createEmptyGrid_all_dead
                                  (set_rows 4294967296 clickedBlinker))))).
    right. vm_compute. discriminate.
  - apply (proj2 (proj2 (proj2 (createEmptyGrid_all_dead
                                  (set_cols (-1) clickedBlinker)))));
      [vm_compute; intuition discriminate | left; reflexivity].
Defined.

(** X2.  [countNeighbors] has no guard of its own against an extent of 0.
    With [rows = 0] its first probe evaluates both remainders, the row one
    by zero, and then throws a [TypeError] ([grid[NaN]] is [undefined]).
    With [cols = 0] on a grid that has the row asked for, nothing is thrown:
    every column index is the [NaN] of a remainder by zero, every probe
    reads [undefined], and the count is 0. *)
Theorem countNeighbors_zero_extent w row col :
  (rows w = 0 ->
   countNeighbors row col w =
     ([EvRemainder (row + -1 + 0) 0;
       EvRemainder (col + -1 + cols w) (cols w)],
      Throw TypeError)) /\
  (wf w -> 0 <= row < rows w -> cols w = 0 ->
   exists t,
     countNeighbors row col w = (t, Ok (0, w)) /\
     In (EvRemainder (col + -1 + 0) 0) t /\
     length t = 16%nat).
Proof.
  split.
  - intros Hrows. unfold countNeighbors, for_range.
    change (Z.to_nat (1 + 1 - -1)) with 3%nat. cbn [for_loop].
    unfold bind.
    rewrite (probeNeighbor_no_rows w row col (-1) (-1) 0 Hrows eq_refl).
    reflexivity.
  - intros Hwf Hrow Hcols. unfold countNeighbors, for_range.
    change (Z.to_nat (1 + 1 - -1)) with 3%nat. cbn [for_loop].
    change (-1 + 1 + 1) with 1. change (-1 + 1) with 0.
    eexists. split.
    + repeat first
        [ apply probeNeighbor_no_cols;
            [assumption | assumption | assumption | lia | reflexivity]
        | eapply bind_returns
        | reflexivity ].
    + split; [cbn; auto | reflexivity].
Qed.

Lemma countNeighbors_zero_extent_witness :
  countNeighbors 0 0 (initialWorld zeroDraws) =
    ([EvRemainder (0 + -1 + 0) 0;
      EvRemainder (0 + -1 + cols (initialWorld zeroDraws))
        (cols (initialWorld zeroDraws))],
     Throw TypeError) /\
  exists t,
    countNeighbors 1 0 threeEmptyRows = (t, Ok (0, threeEmptyRows)) /\
    In (EvRemainder (0 + -1 + 0) 0) t /\
    length t = 16%nat.
Proof.
  split.
  - apply (proj1 (countNeighbors_zero_extent (initialWorld zeroDraws) 0 0)).
    reflexivity.
  - apply (proj2 (countNeighbors_zero_extent threeEmptyRows 1 0));
      [ split; [cbn; lia |]; split; [cbn; lia |];
        split; [reflexivity | repeat constructor]
      | cbn; lia
      | reflexivity ].
Defined.

(** Deciding [depicts] on a concrete grid: compare cell by cell. *)
Lemma depicts_by_cells n m g f :
  shaped n m g ->
  forallb (fun i => forallb (fun j =>
             match cellAt g i j with
             | Some v => v =? f i j
             | None => false
             end) (indices 0 m)) (indices 0 n) = true ->
  depicts n m g f.
Proof.
  intros Hs Hall. split; [exact Hs |]. intros i j Hi Hj.
  rewrite forallb_forall in Hall.
  specialize (Hall i (proj2 (in_indices 0 n i) Hi)).
  rewrite forallb_forall in Hall.
  specialize (Hall j (proj2 (in_indices 0 m j) Hj)).
  destruct (cellAt g i j) as [v|]; [| discriminate].
  apply Z.eqb_eq in Hall. now subst.
Qed.

Lemma wf_threeEmptyRows : wf threeEmptyRows.
Proof.
  split; [cbn; lia |]; split; [cbn; lia |];
  split; [reflexivity | repeat constructor].
Qed.

Lemma wf_loneCellWorld : wf loneCellWorld.
Proof.
  split; [cbn; lia |]; split; [cbn; lia |];
  split; [reflexivity | repeat constructor].
Qed.

Lemma wf_oneRowWorld : wf oneRowWorld.
Proof.
  split; [cbn; lia |]; split; [cbn; lia |];
  split; [reflexivity | repeat constructor].
Qed.

Lemma wf_blockWorld : wf blockWorld.
Proof.
  split; [cbn; lia |]; split; [cbn; lia |];
  split; [reflexivity | repeat constructor].
Qed.

Lemma wf_initialWorld tape : wf (initialWorld tape).
Proof. apply healthy_initial. Qed.

Lemma loneCellWorld_depicts :
  depicts 3 3 (grid loneCellWorld) (loneCell 1 1 3).
Proof.
  apply depicts_by_cells;
  [split; [reflexivity | repeat constructor] | vm_compute; reflexivity].
Qed.

Lemma oneRowWorld_depicts :
  depicts 1 4 (grid oneRowWorld) (loneCell 0 1 3).
Proof.
  apply depicts_by_cells;
  [split; [reflexivity | repeat constructor] | vm_compute; reflexivity].
Qed.

Lemma blockWorld_depicts :
  depicts 4 4 (grid blockWorld) (block 4 4 0 0 3 3 3 3).
Proof.
  apply depicts_by_cells;
  [split; [reflexivity | repeat constructor] | vm_compute; reflexivity].
Qed.

(** X3.  No birth without neighbours: from a well-formed state in which no
    cell is alive, [computeNextGeneration] leaves the all-zero grid; if the
    grid was all zero already, no variable changes at all. *)
Theorem computeNextGeneration_no_life w :
  wf w -> (forall i j, alive (grid w) i j = false) ->
  exists t,
    computeNextGeneration w =
      (t, Ok (tt, set_grid (emptyGrid (rows w) (cols w)) w)) /\
    (grid w = emptyGrid (rows w) (cols w) ->
     computeNextGeneration w = (t, Ok (tt, w))).
Proof.
  intros Hwf Hdead. pose proof Hwf as (Hr & Hc & Hs).
  destruct (run_generation w Hwf) as (t & g' & Hrun & Hs' & Hcells).
  assert (Hg' : g' = emptyGrid (rows w) (cols w)).
  { apply depicts_allDead; [lia | lia |]. split; [exact Hs' |].
    intros i j Hi Hj. rewrite Hcells by assumption.
    rewrite wrappedNeighbors_no_life by exact Hdead.
    specialize (Hdead i j). unfold alive in Hdead.
    unfold nextCell. rewrite Hdead. reflexivity. }
  subst g'. exists t. split; [exact Hrun |].
  intros Hempty. rewrite Hrun, <- Hempty. now rewrite set_grid_same.
Qed.

Lemma computeNextGeneration_no_life_witness :
  wf emptyFive /\ (forall i j, alive (grid emptyFive) i j = false) /\
  exists t,
    computeNextGeneration emptyFive =
      (t, Ok (tt, set_grid (emptyGrid (rows emptyFive) (cols emptyFive))
                    emptyFive)) /\
    (grid emptyFive = emptyGrid (rows emptyFive) (cols emptyFive) ->
     computeNextGeneration emptyFive = (t, Ok (tt, emptyFive))).
Proof.
  assert (Hwf : wf emptyFive).
  { split; [cbn; lia |]. split; [cbn; lia |].
    apply (shaped_emptyGrid 5 5); lia. }
  assert (Hdead : forall i j, alive (grid emptyFive) i j = false)
    by (intros i j; apply (alive_emptyGrid 5 5)).
  split; [exact Hwf |]. split; [exact Hdead |].
  exact (computeNextGeneration_no_life emptyFive Hwf Hdead).
Defined.

(** X4.  On a grid with at least two rows and two columns a single live
    cell, whatever it stores, dies in the next generation and nothing is
    born: the grid is all zero afterwards. *)
Theorem lone_cell_dies w r c a :
  wf w -> 2 <= rows w -> 2 <= cols w ->
  0 <= r < rows w -> 0 <= c < cols w -> 0 < a ->
  depicts (rows w) (cols w) (grid w) (loneCell r c a) ->
  exists t,
    computeNextGeneration w =
      (t, Ok (tt, set_grid (emptyGrid (rows w) (cols w)) w)).
Proof.
  intros Hwf Hn Hm Hr Hc Ha Hg.
  destruct (run_generation w Hwf) as (t & g' & Hrun & Hnext).
  pose proof (loneCell_generation _ _ _ _ _ _ _ Hn Hm Hr Hc Ha Hg Hnext)
    as Hg'.
  apply depicts_allDead in Hg'; [| lia | lia]. subst g'.
  exists t. exact Hrun.
Qed.

Lemma lone_cell_dies_witness :
  wf loneCellWorld /\ 2 <= rows loneCellWorld /\ 2 <= cols loneCellWorld /\
  0 <= 1 < rows loneCellWorld /\ 0 <= 1 < cols loneCellWorld /\ 0 < 3 /\
  depicts (rows loneCellWorld) (cols loneCellWorld) (grid loneCellWorld)
    (loneCell 1 1 3) /\
  exists t,
    computeNextGeneration loneCellWorld =
      (t, Ok (tt, set_grid (emptyGrid (rows loneCellWorld)
                              (cols loneCellWorld)) loneCellWorld)).
Proof.
  split; [exact wf_loneCellWorld |].
  split; [cbn; lia |]. split; [cbn; lia |].
  split; [cbn; lia |]. split; [cbn; lia |]. split; [lia |].
  split; [exact loneCellWorld_depicts |].
  apply (lone_cell_dies loneCellWorld 1 1 3);
    [exact wf_loneCellWorld | cbn; lia | cbn; lia | cbn; lia | cbn; lia
    | lia | exact loneCellWorld_depicts].
Defined.

(** X5.  On a grid with a single row and at least three columns a lone live
    cell does not die: the wrap makes it its own neighbour above and below,
    so it has 2 neighbours and survives storing 2, and the cells to its left
    and right see it three times and are born storing 3. *)
Theorem lone_cell_in_one_row_spreads w c a :
  wf w -> rows w = 1 -> 3 <= cols w -> 0 <= c < cols w -> 0 < a ->
  depicts 1 (cols w) (grid w) (loneCell 0 c a) ->
  exists t g',
    computeNextGeneration w = (t, Ok (tt, set_grid g' w)) /\
    depicts 1 (cols w) g' (hBlinker (cols w) 0 c 3 2 3) /\
    cellAt g' 0 c = Some 2 /\
    cellAt g' 0 ((c - 1) mod cols w) = Some 3 /\
    cellAt g' 0 ((c + 1) mod cols w) = Some 3.
Proof.
  intros Hwf Hrows Hm Hc Ha Hg.
  destruct (run_generation w Hwf) as (t & g' & Hrun & Hnext).
  rewrite Hrows in Hnext.
  pose proof (loneCell_one_row _ _ _ _ _ Hm Hc Ha Hg Hnext) as Hg'.
  exists t, g'. split; [exact Hrun |]. split; [exact Hg' |].
  destruct Hg' as [_ Hcells].
  assert (Hm0 : 0 < cols w) by lia.
  pose proof (Z.mod_pos_bound (c - 1) (cols w) Hm0) as Hl.
  pose proof (Z.mod_pos_bound (c + 1) (cols w) Hm0) as Hrt.
  rewrite !Hcells by lia. unfold hBlinker.
  rewrite (wrap_pred (cols w) c), (wrap_succ (cols w) c) by lia.
  repeat split; f_equal;
    settle_eqb c 0; settle_eqb c (cols w - 1); zprune.
Qed.

Lemma lone_cell_in_one_row_spreads_witness :
  wf oneRowWorld /\ rows oneRowWorld = 1 /\ 3 <= cols oneRowWorld /\
  0 <= 1 < cols oneRowWorld /\ 0 < 3 /\
  depicts 1 (cols oneRowWorld) (grid oneRowWorld) (loneCell 0 1 3) /\
  exists t g',
    computeNextGeneration oneRowWorld = (t, Ok (tt, set_grid g' oneRowWorld)) /\
    depicts 1 (cols oneRowWorld) g' (hBlinker (cols oneRowWorld) 0 1 3 2 3) /\
    cellAt g' 0 1 = Some 2 /\
    cellAt g' 0 ((1 - 1) mod cols oneRowWorld) = Some 3 /\
    cellAt g' 0 ((1 + 1) mod cols oneRowWorld) = Some 3.
Proof.
  split; [exact wf_oneRowWorld |]. split; [reflexivity |].
  split; [cbn; lia |]. split; [cbn; lia |]. split; [lia |].
  split; [exact oneRowWorld_depicts |].
  apply (lone_cell_in_one_row_spreads oneRowWorld 1 3);
    [exact wf_oneRowWorld | reflexivity | cbn; lia | cbn; lia | lia
    | exact oneRowWorld_depicts].
Defined.

(** X6.  The block is a still life: on a grid with at least 4 rows and 4
    columns, a two by two block of live cells anywhere on the torus,
    whatever positive values it stores, is after one generation the same
    block storing 3 in each cell, and from then on [computeNextGeneration]
    changes nothing. *)
Theorem block_still_life w r c a b d e :
  wf w -> 4 <= rows w -> 4 <= cols w ->
  0 <= r < rows w -> 0 <= c < cols w ->
  0 < a -> 0 < b -> 0 < d -> 0 < e ->
  depicts (rows w) (cols w) (grid w)
    (block (rows w) (cols w) r c a b d e) ->
  exists t1 w1 t2,
    computeNextGeneration w = (t1, Ok (tt, w1)) /\
    depicts (rows w) (cols w) (grid w1)
      (block (rows w) (cols w) r c 3 3 3 3) /\
    computeNextGeneration w1 = (t2, Ok (tt, w1)).
Proof.
  intros Hwf Hn Hm Hr Hc Ha Hb Hd He Hg.
  pose proof Hwf as (Hrows & Hcols & Hs).
  destruct (run_generation w Hwf) as (t1 & g1 & Hrun1 & Hnext1).
  pose proof (block_generation _ _ _ _ _ _ _ _ _ _
                Hn Hm Hr Hc Ha Hb Hd He Hg Hnext1) as Hg1.
  assert (Hwf1 : wf (set_grid g1 w))
    by exact (conj Hrows (conj Hcols (proj1 Hg1))).
  destruct (run_generation (set_grid g1 w) Hwf1)
    as (t2 & g2 & Hrun2 & Hnext2).
  cbn [rows cols grid set_grid] in Hnext2.
  pose proof (block_generation _ _ _ _ 3 3 3 3 _ _
                Hn Hm Hr Hc ltac:(lia) ltac:(lia) ltac:(lia) ltac:(lia)
                Hg1 Hnext2) as Hg2.
  rewrite (depicts_unique _ _ _ _ _ Hg2 Hg1) in Hrun2.
  exists t1, (set_grid g1 w), t2.
  split; [exact Hrun1 |]. split; [exact Hg1 |]. exact Hrun2.
Qed.

Lemma block_still_life_witness :
  wf blockWorld /\ 4 <= rows blockWorld /\ 4 <= cols blockWorld /\
  0 <= 0 < rows blockWorld /\ 0 <= 0 < cols blockWorld /\ 0 < 3 /\
  depicts (rows blockWorld) (cols blockWorld) (grid blockWorld)
    (block (rows blockWorld) (cols blockWorld) 0 0 3 3 3 3) /\
  exists t1 w1 t2,
    computeNextGeneration blockWorld = (t1, Ok (tt, w1)) /\
    depicts (rows blockWorld) (cols blockWorld) (grid w1)
      (block (rows blockWorld) (cols blockWorld) 0 0 3 3 3 3) /\
    computeNextGeneration w1 = (t2, Ok (tt, w1)).
Proof.
  split; [exact wf_blockWorld |].
  split; [cbn; lia |]. split; [cbn; lia |].
  split; [cbn; lia |]. split; [cbn; lia |]. split; [lia |].
  split; [exact blockWorld_depicts |].
  apply (block_still_life blockWorld 0 0 3 3 3 3);
    [exact wf_blockWorld | cbn; lia | cbn; lia | cbn; lia | cbn; lia
    | lia | lia | lia | lia | exact blockWorld_depicts].
Defined.

(* ===================================================================== *)
(** ** Further properties: painting *)
(* ===================================================================== *)

(** X7.  [getColorForNeighborCount] indexes the four-colour palette with
    [min (n - 1) 3]: the counts 1, 2 and 3 get the first three greens, every
    count from 4 on gets the darkest one, and a count of 0 or less gets no
    colour at all ([undefined]). *)
Theorem getColorForNeighborCount_palette n :
  (n <= 0 -> getColorForNeighborCount n = None) /\
  (n = 1 -> getColorForNeighborCount n = Some "#9be9a8"%string) /\
  (n = 2 -> getColorForNeighborCount n = Some "#40c463"%string) /\
  (n = 3 -> getColorForNeighborCount n = Some "#30a14e"%string) /\
  (4 <= n -> getColorForNeighborCount n = Some "#216e39"%string).
Proof.
  unfold getColorForNeighborCount. cbn [GITHUB_COLORS length].
  repeat split.
  - intros Hn. apply elem_outside. lia.
  - intros ->. reflexivity.
  - intros ->. reflexivity.
  - intros ->. reflexivity.
  - intros Hn. rewrite Z.min_r by lia. reflexivity.
Qed.

Lemma getColorForNeighborCount_palette_witness :
  (7 <= 0 -> getColorForNeighborCount 7 = None) /\
  (7 = 1 -> getColorForNeighborCount 7 = Some "#9be9a8"%string) /\
  (7 = 2 -> getColorForNeighborCount 7 = Some "#40c463"%string) /\
  (7 = 3 -> getColorForNeighborCount 7 = Some "#30a14e"%string) /\
  (4 <= 7 -> getColorForNeighborCount 7 = Some "#216e39"%string).
Proof. exact (getColorForNeighborCount_palette 7). Defined.

(** X8.  On a well-formed state [draw] changes no variable and paints the
    background and then, row by row and cell by cell, one rounded square of
    side [CELL_SIZE] at [(col * CELL_SIZE, row * CELL_SIZE)] for each live
    cell, filled with the colour of the cell's value, and nothing for a dead
    cell; it performs no other effect. *)
Theorem draw_paints w :
  wf w ->
  draw w =
    (EvClearCanvas :: gridPaints (grid w) (rows w) (cols w), Ok (tt, w)) /\
  (forall i j v, 0 <= i < rows w -> 0 <= j < cols w ->
     cellAt (grid w) i j = Some v ->
     (0 < v ->
      In (EvRoundedRect (j * 10) (i * 10) 10 10 2 (getColorForNeighborCount v))
         (gridPaints (grid w) (rows w) (cols w))) /\
     (v <= 0 ->
      forall width height radius fillStyle,
        ~ In (EvRoundedRect (j * 10) (i * 10) width height radius fillStyle)
             (gridPaints (grid w) (rows w) (cols w)))).
Proof.
  intros Hwf. split; [now apply draw_effects |].
  intros i j v Hi Hj Hv. split.
  - intros Hpos. unfold gridPaints. apply in_flat_map.
    exists i. split; [apply in_indices; lia |].
    unfold rowPaints. apply in_flat_map.
    exists j. split; [apply in_indices; lia |].
    rewrite Hv. unfold cellPaint.
    destruct (Z.ltb_spec 0 v); [| lia]. left. reflexivity.
  - intros Hdead width height radius fillStyle Hin.
    apply in_gridPaints in Hin.
    destruct Hin as (i' & j' & Hi' & Hj' & Hin).
    unfold cellPaint in Hin.
    destruct (cellAt (grid w) i' j') as [v'|] eqn:Hv'; [| contradiction].
    destruct (Z.ltb_spec 0 v'); [| contradiction].
    destruct Hin as [Heq | []]. unfold CELL_SIZE in Heq.
    injection Heq as Hx Hy _ _ _ _.
    assert (i' = i) by lia. assert (j' = j) by lia. subst.
    rewrite Hv in Hv'. injection Hv' as <-. lia.
Qed.

Lemma draw_paints_witness :
  wf clickedBlinker /\
  draw clickedBlinker =
    (EvClearCanvas
       :: gridPaints (grid clickedBlinker) (rows clickedBlinker)
            (cols clickedBlinker),
     Ok (tt, clickedBlinker)) /\
  (forall i j v, 0 <= i < rows clickedBlinker -> 0 <= j < cols clickedBlinker ->
     cellAt (grid clickedBlinker) i j = Some v ->
     (0 < v ->
      In (EvRoundedRect (j * 10) (i * 10) 10 10 2 (getColorForNeighborCount v))
         (gridPaints (grid clickedBlinker) (rows clickedBlinker)
            (cols clickedBlinker))) /\
     (v <= 0 ->
      forall width height radius fillStyle,
        ~ In (EvRoundedRect (j * 10) (i * 10) width height radius fillStyle)
             (gridPaints (grid clickedBlinker) (rows clickedBlinker)
                (cols clickedBlinker)))).
Proof.
  split; [exact wf_clickedBlinker |].
  exact (draw_paints clickedBlinker wf_clickedBlinker).
Defined.

(** X9.  In every reachable state all that [draw] paints after the
    background are squares filled with the second or the third green of the
    palette, for a cell holding 2 or 3 respectively: no square is ever
    painted without a colour, and the lightest and the darkest green are
    never used. *)
Theorem draw_reachable_colours w :
  reachable w ->
  exists t,
    draw w = (EvClearCanvas :: t, Ok (tt, w)) /\
    Forall (fun ev =>
      exists i j, 0 <= i < rows w /\ 0 <= j < cols w /\
        ((cellAt (grid w) i j = Some 2 /\
          ev = EvRoundedRect (j * 10) (i * 10) 10 10 2
                 (Some "#40c463"%string)) \/
         (cellAt (grid w) i j = Some 3 /\
          ev = EvRoundedRect (j * 10) (i * 10) 10 10 2
                 (Some "#30a14e"%string)))) t.
Proof.
  intros Hreach. destruct (reachable_healthy w Hreach) as [Hwf Hcells].
  exists (gridPaints (grid w) (rows w) (cols w)).
  split; [now apply draw_effects |].
  apply List.Forall_forall. intros ev Hin.
  apply in_gridPaints in Hin. destruct Hin as (i & j & Hi & Hj & Hin).
  exists i, j. split; [exact Hi |]. split; [exact Hj |].
  unfold cellPaint in Hin.
  destruct (cellAt (grid w) i j) as [v|] eqn:Hv; [| contradiction].
  destruct (Z.ltb_spec 0 v); [| contradiction].
  destruct Hin as [<- | []].
  destruct (Hcells i j v Hv) as [-> | [-> | ->]]; [lia | left | right];
    split; reflexivity.
Qed.

Lemma draw_reachable_colours_witness :
  reachable clickedBlinker /\
  exists t,
    draw clickedBlinker = (EvClearCanvas :: t, Ok (tt, clickedBlinker)) /\
    Forall (fun ev =>
      exists i j, 0 <= i < rows clickedBlinker /\
        0 <= j < cols clickedBlinker /\
        ((cellAt (grid clickedBlinker) i j = Some 2 /\
          ev = EvRoundedRect (j * 10) (i * 10) 10 10 2
                 (Some "#40c463"%string)) \/
         (cellAt (grid clickedBlinker) i j = Some 3 /\
          ev = EvRoundedRect (j * 10) (i * 10) 10 10 2
                 (Some "#30a14e"%string)))) t.
Proof.
  split; [exact reachable_clickedBlinker |].
  exact (draw_reachable_colours clickedBlinker reachable_clickedBlinker).
Defined.

(* ===================================================================== *)
(** ** Lemmas on the pacer, on clicks and on sessions *)
(* ===================================================================== *)

Lemma animate_idle w timestamp :
  isPlaying w = false \/
  intervalElapsed timestamp (lastUpdate w) (speed w) = false ->
  animate timestamp w = ([EvRequestFrame], Ok (tt, w)).
Proof.
  intros Hidle. unfold animate. cbv [bind gets].
  destruct (isPlaying w); [| reflexivity].
  destruct Hidle as [Hp | Hearly]; [discriminate |].
  rewrite Hearly. reflexivity.
Qed.

Lemma animate_advances w timestamp t1 w1 t2 :
  isPlaying w = true ->
  intervalElapsed timestamp (lastUpdate w) (speed w) = true ->
  computeNextGeneration w = (t1, Ok (tt, w1)) ->
  draw w1 = (t2, Ok (tt, w1)) ->
  animate timestamp w =
    (t1 ++ t2 ++ [EvRequestFrame], Ok (tt, set_lastUpdate timestamp w1)).
Proof.
  intros Hplay Hdue Hgen Hdraw.
  unfold animate, bind, gets. cbn -[computeNextGeneration draw intervalElapsed].
  rewrite Hplay, Hdue, Hgen, Hdraw. cbn.
  now rewrite app_nil_r, <- !app_assoc.
Qed.

Lemma Qfloor_unique (q : Q) (z : Z) :
  (inject_Z z <= q)%Q -> (q < inject_Z (z + 1))%Q -> Qfloor q = z.
Proof.
  intros Hlo Hhi.
  pose proof (Qfloor_le q) as Hfl. pose proof (Qlt_floor q) as Hfu.
  assert (H1 : (inject_Z z < inject_Z (Qfloor q + 1))%Q)
    by (eapply Qle_lt_trans; eauto).
  assert (H2 : (inject_Z (Qfloor q) < inject_Z (z + 1))%Q)
    by (eapply Qle_lt_trans; eauto).
  rewrite <- Zlt_Qlt in H1, H2. lia.
Qed.

(** The cell a pixel coordinate falls into. *)
Lemma Qfloor_cell (x : Q) (c : Z) :
  (inject_Z (c * 10) <= x)%Q -> (x < inject_Z (c * 10 + 10))%Q ->
  Qfloor (x / inject_Z CELL_SIZE) = c.
Proof.
  intros Hlo Hhi. unfold CELL_SIZE. apply Qfloor_unique.
  - apply Qle_shift_div_l; [reflexivity |].
    now rewrite <- inject_Z_mult.
  - apply Qlt_shift_div_r; [reflexivity |].
    rewrite <- inject_Z_mult.
    now replace ((c + 1) * 10) with (c * 10 + 10) by lia.
Qed.

Lemma Qfloor_before (x : Q) :
  (x < 0)%Q -> Qfloor (x / inject_Z CELL_SIZE) < 0.
Proof.
  intros Hx. unfold CELL_SIZE.
  assert (Hq : (x / inject_Z 10 < inject_Z 0)%Q).
  { apply Qlt_shift_div_r; [reflexivity |]. exact Hx. }
  pose proof (Qfloor_le (x / inject_Z 10)) as Hfl.
  assert (H : (inject_Z (Qfloor (x / inject_Z 10)) < inject_Z 0)%Q)
    by (eapply Qle_lt_trans; eauto).
  now rewrite <- Zlt_Qlt in H.
Qed.

Lemma Qfloor_beyond (x : Q) (n : Z) :
  (inject_Z (n * 10) <= x)%Q -> n <= Qfloor (x / inject_Z CELL_SIZE).
Proof.
  intros Hx. unfold CELL_SIZE.
  assert (Hq : (inject_Z n <= x / inject_Z 10)%Q).
  { apply Qle_shift_div_l; [reflexivity |]. now rewrite <- inject_Z_mult. }
  apply Qfloor_resp_le in Hq. now rewrite Qfloor_Z in Hq.
Qed.

Lemma flat_map_nothing {A B : Type} (f : A -> list B) (l : list A) :
  (forall x, In x l -> f x = []) -> flat_map f l = [].
Proof.
  induction l as [|x l IH]; intros Hf; cbn [flat_map]; [reflexivity |].
  rewrite (Hf x) by (left; reflexivity). cbn [app].
  apply IH. intros y Hy. apply Hf. now right.
Qed.

Lemma gridPaints_no_life g rs cs :
  (forall i j, alive g i j = false) -> gridPaints g rs cs = [].
Proof.
  intros Hdead. unfold gridPaints. apply flat_map_nothing. intros i _.
  unfold rowPaints. apply flat_map_nothing. intros j _.
  specialize (Hdead i j). unfold alive, gt0 in Hdead. unfold cellPaint.
  destruct (cellAt g i j) as [v|]; [| reflexivity]. now rewrite Hdead.
Qed.

Lemma wp_session acts : forall w,
  healthy w -> Forall admissible acts ->
  wp safe_event (session acts) w (fun _ w' => healthy w').
Proof.
  induction acts as [|a acts IH]; intros w Hh Hadm; cbn [session].
  - now apply wp_ret.
  - inversion Hadm as [|? ? Ha Hrest]; subst.
    apply wp_bind. eapply wp_conseq; [now apply perform_healthy |].
    intros [] w1 Hh1. now apply IH.
Qed.

Lemma createEmptyGrid_returns w :
  0 <= rows w < 4294967296 -> 0 <= cols w < 4294967296 ->
  createEmptyGrid w = ([], Ok (emptyGrid (rows w) (cols w), w)).
Proof.
  intros Hr Hc.
  destruct (wp_createEmptyGrid (fun _ => False) w
              (fun g w' => w' = w /\ g = emptyGrid (rows w) (cols w))
              Hr Hc (conj eq_refl eq_refl))
    as (t & g & w' & Hrun & Ht & -> & ->).
  apply no_events in Ht. now subst t.
Qed.

Lemma wf_set_grid w g :
  wf w -> shaped (rows w) (cols w) g -> wf (set_grid g w).
Proof. intros (Hr & Hc & _) Hs. exact (conj Hr (conj Hc Hs)). Qed.

Lemma not_frame_request_of_remainder ev :
  isRemainder ev -> ev <> EvRequestFrame.
Proof. destruct ev; cbn; intros H; (contradiction || discriminate). Qed.

Lemma not_frame_request_of_painting ev :
  isPainting ev -> ev <> EvRequestFrame.
Proof. destruct ev; cbn; intros H; (contradiction || discriminate). Qed.

(* ===================================================================== *)
(** ** Further properties: the pacer and the handlers *)
(* ===================================================================== *)

(** X10.  Whatever the timestamp, the play state and the speed, on a
    well-formed state [animate] returns normally, leaves a well-formed
    state, and asks for the next animation frame exactly once, as the last
    thing it does. *)
Theorem animate_requests_next_frame w timestamp :
  wf w ->
  exists t w',
    animate timestamp w = (t ++ [EvRequestFrame], Ok (tt, w')) /\
    Forall (fun ev => ev <> EvRequestFrame) t /\
    wf w'.
Proof.
  intros Hwf.
  destruct (isPlaying w) eqn:Hplay;
    [destruct (intervalElapsed timestamp (lastUpdate w) (speed w)) eqn:Hdue |].
  - destruct (run_generation w Hwf) as (t1 & g' & Hgen & Hs' & _).
    pose proof (wf_set_grid w g' Hwf Hs') as Hwf1.
    pose proof (draw_effects _ Hwf1) as Hdraw.
    exists (t1 ++ fst (draw (set_grid g' w))), (set_lastUpdate timestamp (set_grid g' w)).
    split; [| split; [| exact Hwf1]].
    + rewrite (animate_advances w timestamp t1 (set_grid g' w) _
                 Hplay Hdue Hgen Hdraw).
      rewrite Hdraw. cbn [fst]. now rewrite <- app_assoc.
    + apply Forall_app. split.
      * pose proof (emits_computeNextGeneration w) as Hev.
        rewrite Hgen in Hev. cbn [fst] in Hev.
        eapply Forall_impl; [exact Hev |].
        exact not_frame_request_of_remainder.
      * eapply Forall_impl; [apply emits_draw |].
        exact not_frame_request_of_painting.
  - exists [], w. split; [apply animate_idle; now right |].
    split; [constructor | exact Hwf].
  - exists [], w. split; [apply animate_idle; now left |].
    split; [constructor | exact Hwf].
Qed.

Lemma animate_requests_next_frame_witness :
  wf playingBlinker /\
  exists t w',
    animate 600 playingBlinker = (t ++ [EvRequestFrame], Ok (tt, w')) /\
    Forall (fun ev => ev <> EvRequestFrame) t /\
    wf w'.
Proof.
  split; [exact wf_clickedBlinker |].
  exact (animate_requests_next_frame playingBlinker 600 wf_clickedBlinker).
Defined.

(** X11.  The pacer limits the rate: when a frame at [ts1] has advanced the
    simulation, [lastUpdate] is [ts1], and a following frame at [ts2] for
    which [ts2 - ts1 >= 1000 / speed] fails, computed in doubles as the
    script computes it, advances nothing and changes no variable. *)
Theorem animate_rate_limit w ts1 ts2 :
  wf w -> isPlaying w = true ->
  (1000 / Number_of_Z (speed w) <=? ts1 - lastUpdate w)%float = true ->
  (1000 / Number_of_Z (speed w) <=? ts2 - ts1)%float = false ->
  exists t1 g1 w1,
    animate ts1 w = (t1, Ok (tt, w1)) /\
    w1 = set_lastUpdate ts1 (set_grid g1 w) /\
    nextGeneration (rows w) (cols w) (grid w) g1 /\
    animate ts2 w1 = ([EvRequestFrame], Ok (tt, w1)).
Proof.
  intros Hwf Hplay Hdue Hearly.
  destruct (run_generation w Hwf) as (t1 & g1 & Hgen & Hnext).
  pose proof (wf_set_grid w g1 Hwf (proj1 Hnext)) as Hwf1.
  pose proof (draw_effects _ Hwf1) as Hdraw.
  eexists. exists g1, (set_lastUpdate ts1 (set_grid g1 w)).
  split; [exact (animate_advances w ts1 t1 _ _ Hplay Hdue Hgen Hdraw) |].
  split; [reflexivity |]. split; [exact Hnext |].
  apply animate_idle. right. exact Hearly.
Qed.

(** The frames of the witness are at 400.00000000000006 and at 733. *)
Lemma animate_rate_limit_witness :
  wf pacedBlinker /\ isPlaying pacedBlinker = true /\
  (1000 / Number_of_Z (speed pacedBlinker)
   <=? 0x1.9000000000001p+8 - lastUpdate pacedBlinker)%float = true /\
  (1000 / Number_of_Z (speed pacedBlinker)
   <=? 733 - 0x1.9000000000001p+8)%float = false /\
  exists t1 g1 w1,
    animate 0x1.9000000000001p+8 pacedBlinker = (t1, Ok (tt, w1)) /\
    w1 = set_lastUpdate 0x1.9000000000001p+8 (set_grid g1 pacedBlinker) /\
    nextGeneration (rows pacedBlinker) (cols pacedBlinker)
      (grid pacedBlinker) g1 /\
    animate 733 w1 = ([EvRequestFrame], Ok (tt, w1)).
Proof.
  split; [exact wf_clickedBlinker |]. split; [reflexivity |].
  split; [reflexivity |]. split; [reflexivity |].
  exact (animate_rate_limit pacedBlinker 0x1.9000000000001p+8 733
           wf_clickedBlinker eq_refl eq_refl eq_refl).
Defined.

(** X12.  A click anywhere in the ten by ten pixel square of a cell of the
    grid toggles that cell and no other; a click left of, above, right of
    or below the grid changes no variable.  Either way the handler
    returns normally. *)
Theorem handleCanvasClick_picks_cell w x y :
  wf w ->
  (forall row col,
     0 <= row < rows w -> 0 <= col < cols w ->
     (inject_Z (col * 10) <= x)%Q -> (x < inject_Z (col * 10 + 10))%Q ->
     (inject_Z (row * 10) <= y)%Q -> (y < inject_Z (row * 10 + 10))%Q ->
     exists t,
       handleCanvasClick x y w =
         (t, Ok (tt, set_grid (grid_set (grid w) row col
                                 (toggled (cellAt (grid w) row col))) w))) /\
  ((x < 0)%Q \/ (inject_Z (cols w * 10) <= x)%Q \/
   (y < 0)%Q \/ (inject_Z (rows w * 10) <= y)%Q ->
   exists t, handleCanvasClick x y w = (t, Ok (tt, w))).
Proof.
  intros Hwf. split.
  - intros row col Hrow Hcol Hx0 Hx1 Hy0 Hy1.
    unfold handleCanvasClick.
    rewrite (Qfloor_cell x col Hx0 Hx1), (Qfloor_cell y row Hy0 Hy1).
    set (w1 := set_grid _ w).
    assert (Hrun : wp safe_event (toggleCell row col ;; draw) w
                     (fun _ w' => w' = w1)).
    { apply wp_bind. apply wp_toggleCell_inside; [exact Hwf | lia | lia |].
      apply wp_draw; [| reflexivity].
      apply wf_set_grid; [exact Hwf |].
      apply shaped_grid_set. apply Hwf. }
    destruct Hrun as (t & [] & w' & Hrun & _ & ->). eauto.
  - intros Hout. unfold handleCanvasClick.
    assert (Hrun : wp safe_event
                     (toggleCell (Qfloor (y / inject_Z CELL_SIZE))
                        (Qfloor (x / inject_Z CELL_SIZE)) ;; draw) w
                     (fun _ w' => w' = w)).
    { apply wp_bind. apply wp_toggleCell_outside.
      - destruct Hout as [Hx | [Hx | [Hy | Hy]]].
        + right; right; left. now apply Qfloor_before.
        + right; right; right. now apply Qfloor_beyond.
        + left. now apply Qfloor_before.
        + right; left. now apply Qfloor_beyond.
      - now apply wp_draw. }
    destruct Hrun as (t & [] & w' & Hrun & _ & ->). eauto.
Qed.

Lemma handleCanvasClick_picks_cell_witness :
  wf clickedBlinker /\
  (forall row col,
     0 <= row < rows clickedBlinker -> 0 <= col < cols clickedBlinker ->
     (inject_Z (col * 10) <= 27)%Q -> (27 < inject_Z (col * 10 + 10))%Q ->
     (inject_Z (row * 10) <= 13)%Q -> (13 < inject_Z (row * 10 + 10))%Q ->
     exists t,
       handleCanvasClick 27 13 clickedBlinker =
         (t, Ok (tt, set_grid (grid_set (grid clickedBlinker) row col
                                 (toggled (cellAt (grid clickedBlinker)
                                             row col))) clickedBlinker))) /\
  ((27 < 0)%Q \/ (inject_Z (cols clickedBlinker * 10) <= 27)%Q \/
   (13 < 0)%Q \/ (inject_Z (rows clickedBlinker * 10) <= 13)%Q ->
   exists t, handleCanvasClick 27 13 clickedBlinker = (t, Ok (tt, clickedBlinker))).
Proof.
  split; [exact wf_clickedBlinker |].
  exact (handleCanvasClick_picks_cell clickedBlinker 27 13 wf_clickedBlinker).
Defined.

(** X13.  The clear button: from a well-formed state [handleClear] leaves
    the all-zero grid of the same extents, changes no other variable, and
    repaints nothing but the background. *)
Theorem handleClear_blank w :
  wf w ->
  handleClear w =
    ([EvClearCanvas], Ok (tt, set_grid (emptyGrid (rows w) (cols w)) w)).
Proof.
  intros Hwf. pose proof Hwf as (Hr & Hc & Hs). unfold handleClear.
  change [EvClearCanvas] with ([] ++ [] ++ [EvClearCanvas]).
  eapply bind_returns; [now apply createEmptyGrid_returns |].
  eapply bind_returns; [reflexivity |].
  rewrite draw_effects
    by (apply wf_set_grid; [exact Hwf | apply shaped_emptyGrid; lia]).
  cbn [grid rows cols set_grid].
  rewrite gridPaints_no_life by (intros i j; apply alive_emptyGrid).
  reflexivity.
Qed.

Lemma handleClear_blank_witness :
  wf clickedBlinker /\
  handleClear clickedBlinker =
    ([EvClearCanvas],
     Ok (tt, set_grid (emptyGrid (rows clickedBlinker) (cols clickedBlinker))
               clickedBlinker)).
Proof.
  split; [exact wf_clickedBlinker |].
  exact (handleClear_blank clickedBlinker wf_clickedBlinker).
Defined.

(** X14.  Resizing the window without changing the number of cells that
    fit (the same quotients by [CELL_SIZE]) changes no variable: the grid
    is rebuilt cell for cell. *)
Theorem resizeCanvas_same_extents w canvasWidth canvasHeight :
  wf w ->
  0 <= canvasWidth < 4294967296 -> 0 <= canvasHeight < 4294967296 ->
  canvasWidth / CELL_SIZE = cols w -> canvasHeight / CELL_SIZE = rows w ->
  exists t, resizeCanvas canvasWidth canvasHeight w = (t, Ok (tt, w)).
Proof.
  intros Hwf HW HH Hcols Hrows. pose proof Hwf as (Hr & Hc & Hs).
  destruct (wp_resizeCanvas w canvasWidth canvasHeight
              (fun _ w' => w' = w) Hwf HW HH)
    as (t & [] & w' & Hrun & _ & ->); [| eauto].
  intros g' Hres. rewrite Hcols, Hrows in *. destruct Hres as [Hs' Hcells].
  assert (Hg' : g' = grid w).
  { apply (grid_ext (rows w) (cols w)); [exact Hs' | exact Hs |].
    intros i j Hi Hj. rewrite Hcells by assumption. zcases. }
  subst g'. destruct w; reflexivity.
Qed.

Lemma resizeCanvas_same_extents_witness :
  wf clickedBlinker /\ 0 <= 57 < 4294967296 /\ 0 <= 52 < 4294967296 /\
  57 / CELL_SIZE = cols clickedBlinker /\
  52 / CELL_SIZE = rows clickedBlinker /\
  exists t, resizeCanvas 57 52 clickedBlinker = (t, Ok (tt, clickedBlinker)).
Proof.
  split; [exact wf_clickedBlinker |]. split; [lia |]. split; [lia |].
  split; [reflexivity |]. split; [reflexivity |].
  apply (resizeCanvas_same_extents clickedBlinker 57 52);
    [exact wf_clickedBlinker | lia | lia | reflexivity | reflexivity].
Defined.

(** X15.  Shrinking the window and restoring it loses what was cut off:
    after a resize to fewer rows and columns followed by a resize back to
    the old extents, the cells that fitted the smaller grid hold their old
    values and all others are 0; no other variable has changed. *)
Theorem resizeCanvas_shrink_and_restore w smallWidth smallHeight
    oldWidth oldHeight :
  wf w ->
  0 <= smallWidth < 4294967296 -> 0 <= smallHeight < 4294967296 ->
  0 <= oldWidth < 4294967296 -> 0 <= oldHeight < 4294967296 ->
  smallWidth / CELL_SIZE <= cols w -> smallHeight / CELL_SIZE <= rows w ->
  oldWidth / CELL_SIZE = cols w -> oldHeight / CELL_SIZE = rows w ->
  exists t1 w1 t2 g2,
    resizeCanvas smallWidth smallHeight w = (t1, Ok (tt, w1)) /\
    resizeCanvas oldWidth oldHeight w1 = (t2, Ok (tt, set_grid g2 w)) /\
    shaped (rows w) (cols w) g2 /\
    forall i j, 0 <= i < rows w -> 0 <= j < cols w ->
      cellAt g2 i j =
      if (i <? smallHeight / CELL_SIZE) && (j <? smallWidth / CELL_SIZE)
      then cellAt (grid w) i j else Some 0.
Proof.
  intros Hwf HW1 HH1 HW0 HH0 Hnc Hnr Hcols Hrows.
  pose proof Hwf as (Hr & Hc & Hs).
  pose proof (cell_count_bounds _ HW1) as Hbc.
  pose proof (cell_count_bounds _ HH1) as Hbr.
  set (nc := smallWidth / CELL_SIZE) in *.
  set (nr := smallHeight / CELL_SIZE) in *.
  destruct (wp_resizeCanvas w smallWidth smallHeight
              (fun _ w' => exists g1,
                 w' = set_grid g1 (set_rows nr (set_cols nc w)) /\
                 resized (rows w) (cols w) nr nc (grid w) g1) Hwf HW1 HH1)
    as (t1 & [] & w1 & Hrun1 & _ & g1 & -> & Hs1 & Hcells1).
  { intros g1 Hg1. exists g1. split; [reflexivity | exact Hg1]. }
  set (w1 := set_grid g1 (set_rows nr (set_cols nc w))) in *.
  assert (Hwf1 : wf w1) by exact (conj Hbr (conj Hbc Hs1)).
  destruct (wp_resizeCanvas w1 oldWidth oldHeight
              (fun _ w' => exists g2,
                 w' = set_grid g2 w /\
                 resized nr nc (rows w) (cols w) g1 g2) Hwf1 HW0 HH0)
    as (t2 & [] & w2 & Hrun2 & _ & g2 & -> & Hs2 & Hcells2).
  { intros g2 Hg2. rewrite Hcols, Hrows in *. exists g2.
    split; [destruct w; reflexivity | exact Hg2]. }
  exists t1, w1, t2, g2.
  split; [exact Hrun1 |]. split; [exact Hrun2 |]. split; [exact Hs2 |].
  intros i j Hi Hj. rewrite Hcells2 by assumption.
  destruct (Z.ltb_spec i nr); destruct (Z.ltb_spec j nc); cbn [andb];
    try (zcases; fail).
  rewrite Hcells1 by lia. zcases.
Qed.

Lemma resizeCanvas_shrink_and_restore_witness :
  wf clickedBlinker /\
  0 <= 30 < 4294967296 /\ 0 <= 30 < 4294967296 /\
  0 <= 50 < 4294967296 /\ 0 <= 50 < 4294967296 /\
  30 / CELL_SIZE <= cols clickedBlinker /\
  30 / CELL_SIZE <= rows clickedBlinker /\
  50 / CELL_SIZE = cols clickedBlinker /\
  50 / CELL_SIZE = rows clickedBlinker /\
  exists t1 w1 t2 g2,
    resizeCanvas 30 30 clickedBlinker = (t1, Ok (tt, w1)) /\
    resizeCanvas 50 50 w1 = (t2, Ok (tt, set_grid g2 clickedBlinker)) /\
    shaped (rows clickedBlinker) (cols clickedBlinker) g2 /\
    forall i j, 0 <= i < rows clickedBlinker -> 0 <= j < cols clickedBlinker ->
      cellAt g2 i j =
      if (i <? 30 / CELL_SIZE) && (j <? 30 / CELL_SIZE)
      then cellAt (grid clickedBlinker) i j else Some 0.
Proof.
  split; [exact wf_clickedBlinker |].
  split; [lia |]. split; [lia |]. split; [lia |]. split; [lia |].
  split; [vm_compute; discriminate |]. split; [vm_compute; discriminate |].
  split; [reflexivity |]. split; [reflexivity |].
  apply (resizeCanvas_shrink_and_restore clickedBlinker 30 30 50 50);
    [exact wf_clickedBlinker | lia | lia | lia | lia
    | vm_compute; discriminate | vm_compute; discriminate
    | reflexivity | reflexivity].
Defined.

Lemma toggleCell_returns w row col :
  wf w -> 0 <= row < rows w -> 0 <= col < cols w ->
  toggleCell row col w =
    ([], Ok (tt, set_grid (grid_set (grid w) row col
                             (toggled (cellAt (grid w) row col))) w)).
Proof.
  intros Hwf Hrow Hcol.
  destruct (wp_toggleCell_inside (fun _ => False) w row col
              (fun _ w' => w' = set_grid (grid_set (grid w) row col
                                   (toggled (cellAt (grid w) row col))) w)
              Hwf Hrow Hcol eq_refl)
    as (t & [] & w' & Hrun & Ht & ->).
  apply no_events in Ht. now subst t.
Qed.

Lemma grid_set_twice r c g i j u v :
  shaped r c g -> 0 <= i < r -> 0 <= j < c ->
  grid_set (grid_set g i j u) i j v = grid_set g i j v.
Proof.
  intros Hs Hi Hj.
  apply (grid_ext r c); [now do 2 apply shaped_grid_set
                        | now apply shaped_grid_set |].
  intros i' j' _ _.
  rewrite (cellAt_grid_set r c) by (try apply shaped_grid_set; assumption).
  rewrite (cellAt_grid_set r c) by assumption.
  rewrite (cellAt_grid_set r c) by assumption.
  now destruct ((i' =? i) && (j' =? j)).
Qed.

Lemma grid_set_same r c g i j v :
  shaped r c g -> 0 <= i < r -> 0 <= j < c ->
  cellAt g i j = Some v -> grid_set g i j v = g.
Proof.
  intros Hs Hi Hj Hv.
  apply (grid_ext r c); [now apply shaped_grid_set | exact Hs |].
  intros i' j' _ _. rewrite (cellAt_grid_set r c) by assumption.
  destruct (Z.eqb_spec i' i); destruct (Z.eqb_spec j' j); cbn [andb];
    subst; now rewrite ?Hv.
Qed.

(* ===================================================================== *)
(** ** Further properties: toggling, stepping and whole sessions *)
(* ===================================================================== *)

(** X16.  Toggling a live cell twice: the first toggle kills it, the second
    revives it with the value 3, whatever it stored before.  The state is
    the one before the two toggles exactly when the cell stored 3. *)
Theorem toggleCell_twice_on_live w row col v :
  wf w -> 0 <= row < rows w -> 0 <= col < cols w ->
  cellAt (grid w) row col = Some v -> 0 < v ->
  exists w1,
    toggleCell row col w = ([], Ok (tt, w1)) /\
    cellAt (grid w1) row col = Some 0 /\
    toggleCell row col w1 =
      ([], Ok (tt, set_grid (grid_set (grid w) row col 3) w)) /\
    (set_grid (grid_set (grid w) row col 3) w = w <-> v = 3).
Proof.
  intros Hwf Hrow Hcol Hv Hpos. pose proof Hwf as (Hr & Hc & Hs).
  assert (Hdead : toggled (Some v) = 0).
  { unfold toggled, gt0. destruct (Z.ltb_spec 0 v); [reflexivity | lia]. }
  exists (set_grid (grid_set (grid w) row col 0) w).
  assert (Hcell : cellAt (grid_set (grid w) row col 0) row col = Some 0).
  { rewrite (cellAt_grid_set (rows w) (cols w)) by assumption.
    now rewrite !Z.eqb_refl. }
  split; [| split; [exact Hcell | split]].
  - rewrite toggleCell_returns by assumption. now rewrite Hv, Hdead.
  - rewrite toggleCell_returns;
      [| apply wf_set_grid; [exact Hwf | now apply shaped_grid_set]
       | exact Hrow | exact Hcol].
    cbn [grid set_grid rows cols]. rewrite Hcell.
    rewrite (grid_set_twice (rows w) (cols w)) by assumption.
    destruct w; reflexivity.
  - split.
    + intros Heq.
      assert (Hg : grid_set (grid w) row col 3 = grid w).
      { apply (f_equal grid) in Heq. exact Heq. }
      assert (H3 : cellAt (grid_set (grid w) row col 3) row col = Some 3).
      { rewrite (cellAt_grid_set (rows w) (cols w)) by assumption.
        now rewrite !Z.eqb_refl. }
      rewrite Hg, Hv in H3. congruence.
    + intros ->.
      rewrite (grid_set_same (rows w) (cols w)) by assumption.
      apply set_grid_same.
Qed.

Lemma toggleCell_twice_on_live_witness :
  wf clickedBlinker /\ 0 <= 2 < rows clickedBlinker /\
  0 <= 2 < cols clickedBlinker /\
  cellAt (grid clickedBlinker) 2 2 = Some 3 /\ 0 < 3 /\
  exists w1,
    toggleCell 2 2 clickedBlinker = ([], Ok (tt, w1)) /\
    cellAt (grid w1) 2 2 = Some 0 /\
    toggleCell 2 2 w1 =
      ([], Ok (tt, set_grid (grid_set (grid clickedBlinker) 2 2 3)
                     clickedBlinker)) /\
    (set_grid (grid_set (grid clickedBlinker) 2 2 3) clickedBlinker
       = clickedBlinker <-> 3 = 3).
Proof.
  split; [exact wf_clickedBlinker |].
  split; [vm_compute; intuition discriminate |].
  split; [vm_compute; intuition discriminate |].
  split; [reflexivity |]. split; [lia |].
  apply (toggleCell_twice_on_live clickedBlinker 2 2 3);
    [exact wf_clickedBlinker | vm_compute; intuition discriminate
    | vm_compute; intuition discriminate | reflexivity | lia].
Defined.

(** X17.  The step button advances the simulation by exactly one
    generation whether or not it is playing, then repaints the new grid.
    Only [grid] changes: [isPlaying], [speed] and the pacer's [lastUpdate]
    are as before, so a step does not delay the next animated frame. *)
Theorem handleStep_one_generation w :
  wf w ->
  exists t g',
    handleStep w =
      (t ++ EvClearCanvas :: gridPaints g' (rows w) (cols w),
       Ok (tt, set_grid g' w)) /\
    nextGeneration (rows w) (cols w) (grid w) g' /\
    Forall isRemainder t.
Proof.
  intros Hwf.
  destruct (run_generation w Hwf) as (t & g' & Hgen & Hnext).
  exists t, g'. split; [| split; [exact Hnext |]].
  - unfold handleStep. eapply bind_returns; [exact Hgen |].
    rewrite draw_effects by (apply wf_set_grid; [exact Hwf | apply Hnext]).
    reflexivity.
  - pose proof (emits_computeNextGeneration w) as Hev.
    now rewrite Hgen in Hev.
Qed.

Lemma handleStep_one_generation_witness :
  wf clickedBlinker /\
  exists t g',
    handleStep clickedBlinker =
      (t ++ EvClearCanvas
            :: gridPaints g' (rows clickedBlinker) (cols clickedBlinker),
       Ok (tt, set_grid g' clickedBlinker)) /\
    nextGeneration (rows clickedBlinker) (cols clickedBlinker)
      (grid clickedBlinker) g' /\
    Forall isRemainder t.
Proof.
  split; [exact wf_clickedBlinker |].
  exact (handleStep_one_generation clickedBlinker wf_clickedBlinker).
Defined.

(** X18.  No session fails: started from the initial variables, whatever
    the random source returns, every finite sequence of handler calls
    (resizes with dimensions in the unsigned 32-bit range, frames, button
    presses, slider values, clicks anywhere) runs to its end without an
    exception and without a remainder by zero, and leaves a rows by cols
    grid whose cells are 0, 2 or 3. *)
Theorem session_never_fails tape acts :
  Forall admissible acts ->
  exists t w',
    session acts (initialWorld tape) = (t, Ok (tt, w')) /\
    Forall safe_event t /\
    wf w' /\ cells_023 (grid w').
Proof.
  intros Hadm.
  destruct (wp_session acts (initialWorld tape) (healthy_initial tape) Hadm)
    as (t & [] & w' & Hrun & Ht & Hwf & Hcells).
  exists t, w'. auto.
Qed.

Lemma session_never_fails_witness :
  Forall admissible
    [ActResize 57 52; ActClick 27 13; ActSpeed 0; ActPlayPause;
     ActFrame 16; ActRandom; ActStep; ActResize 0 0; ActStep; ActClear] /\
  exists t w',
    session
      [ActResize 57 52; ActClick 27 13; ActSpeed 0; ActPlayPause;
       ActFrame 16; ActRandom; ActStep; ActResize 0 0; ActStep; ActClear]
      (initialWorld zeroDraws) = (t, Ok (tt, w')) /\
    Forall safe_event t /\
    wf w' /\ cells_023 (grid w').
Proof.
  assert (Hadm : Forall admissible
    [ActResize 57 52; ActClick 27 13; ActSpeed 0; ActPlayPause;
     ActFrame 16; ActRandom; ActStep; ActResize 0 0; ActStep; ActClear]).
  { repeat constructor; cbn; lia. }
  split; [exact Hadm |].
  exact (session_never_fails zeroDraws _ Hadm).
Defined.

(** X19.  The random button: [handleRandom] consumes one draw of the
    random source per cell, in row-major order, and paints exactly the
    cells whose draw exceeds 0.7, all of them in the third green (a fresh
    cell stores 3). *)
Theorem handleRandom_paints_draws w :
  wf w ->
  exists g',
    handleRandom w =
      (EvClearCanvas :: gridPaints g' (rows w) (cols w),
       Ok (tt, set_randomCalls (randomCalls w + rows w * cols w)
                 (set_grid g' w))) /\
    randomized RANDOM_DENSITY (randomTape w) (randomCalls w)
      (rows w) (cols w) g' /\
    Forall (fun ev =>
      exists i j, 0 <= i < rows w /\ 0 <= j < cols w /\
        (7 # 10 < randomTape w (randomCalls w + i * cols w + j))%Q /\
        ev = EvRoundedRect (j * 10) (i * 10) 10 10 2
               (Some "#30a14e"%string))
      (gridPaints g' (rows w) (cols w)).
Proof.
  intros Hwf. pose proof Hwf as (Hr & Hc & Hs).
  destruct (wp_randomizeGridWith (fun _ => False) RANDOM_DENSITY w
              (fun _ w' => exists g',
                 w' = set_randomCalls (randomCalls w + rows w * cols w)
                        (set_grid g' w) /\
                 randomized RANDOM_DENSITY (randomTape w) (randomCalls w)
                   (rows w) (cols w) g') Hr Hc)
    as (t & [] & w' & Hrun & Ht & g' & -> & Hrand).
  { intros g' Hg'. exists g'. split; [reflexivity | exact Hg']. }
  apply no_events in Ht. subst t.
  exists g'. split; [| split; [exact Hrand |]].
  - unfold handleRandom, randomizeGrid.
    change (EvClearCanvas :: gridPaints g' (rows w) (cols w))
      with ([] ++ EvClearCanvas :: gridPaints g' (rows w) (cols w)).
    eapply bind_returns; [exact Hrun |].
    rewrite draw_effects; [reflexivity |].
    exact (conj Hr (conj Hc (proj1 Hrand))).
  - apply List.Forall_forall. intros ev Hin.
    apply in_gridPaints in Hin. destruct Hin as (i & j & Hi & Hj & Hin).
    exists i, j. split; [exact Hi |]. split; [exact Hj |].
    rewrite (proj2 Hrand i j Hi Hj) in Hin.
    unfold cellPaint, drawnCell in Hin.
    destruct (Qlt_le_dec (1 - RANDOM_DENSITY) _) as [Hlt | Hle];
      [| contradiction].
    destruct Hin as [<- | []]. split; [| reflexivity].
    eapply Qle_lt_trans; [| exact Hlt]. vm_compute. discriminate.
Qed.

Lemma handleRandom_paints_draws_witness :
  wf clickedBlinker /\
  exists g',
    handleRandom clickedBlinker =
      (EvClearCanvas
       :: gridPaints g' (rows clickedBlinker) (cols clickedBlinker),
       Ok (tt, set_randomCalls
                 (randomCalls clickedBlinker
                  + rows clickedBlinker * cols clickedBlinker)
                 (set_grid g' clickedBlinker))) /\
    randomized RANDOM_DENSITY (randomTape clickedBlinker)
      (randomCalls clickedBlinker)
      (rows clickedBlinker) (cols clickedBlinker) g' /\
    Forall (fun ev =>
      exists i j, 0 <= i < rows clickedBlinker /\
        0 <= j < cols clickedBlinker /\
        (7 # 10 < randomTape clickedBlinker
                    (randomCalls clickedBlinker
                     + i * cols clickedBlinker + j))%Q /\
        ev = EvRoundedRect (j * 10) (i * 10) 10 10 2
               (Some "#30a14e"%string))
      (gridPaints g' (rows clickedBlinker) (cols clickedBlinker)).
Proof.
  split; [exact wf_clickedBlinker |].
  exact (handleRandom_paints_draws clickedBlinker wf_clickedBlinker).
Defined.

Lemma wrappedNeighbors_by_life r c g1 g2 row col :
  (forall i j, alive g1 i j = alive g2 i j) ->
  wrappedNeighbors r c g1 row col = wrappedNeighbors r c g2 row col.
Proof.
  intros Hlife. unfold wrappedNeighbors. do 2 f_equal.
  apply List.filter_ext. intros o. apply Hlife.
Qed.

(** X20.  The stored values only colour the cells: two states of the same
    extents whose grids have the same live cells, whatever positive values
    these store, have the same next generation, stored values included. *)
Theorem computeNextGeneration_by_life w1 w2 :
  wf w1 -> wf w2 -> rows w1 = rows w2 -> cols w1 = cols w2 ->
  (forall i j, alive (grid w1) i j = alive (grid w2) i j) ->
  exists t1 t2 g',
    computeNextGeneration w1 = (t1, Ok (tt, set_grid g' w1)) /\
    computeNextGeneration w2 = (t2, Ok (tt, set_grid g' w2)) /\
    nextGeneration (rows w1) (cols w1) (grid w1) g'.
Proof.
  intros Hwf1 Hwf2 Hrows Hcols Hlife.
  destruct (run_generation w1 Hwf1) as (t1 & g1 & Hrun1 & Hs1 & Hc1).
  destruct (run_generation w2 Hwf2) as (t2 & g2 & Hrun2 & Hs2 & Hc2).
  rewrite <- Hrows, <- Hcols in Hs2, Hc2.
  assert (Heq : g2 = g1).
  { apply (grid_ext (rows w1) (cols w1)); [exact Hs2 | exact Hs1 |].
    intros i j Hi Hj. rewrite Hc1, Hc2 by assumption.
    rewrite (wrappedNeighbors_by_life _ _ (grid w1) (grid w2)) by exact Hlife.
    pose proof (Hlife i j) as Hij. unfold alive in Hij.
    unfold nextCell. now rewrite Hij. }
  subst g2. exists t1, t2, g1.
  split; [exact Hrun1 |]. split; [exact Hrun2 |]. exact (conj Hs1 Hc1).
Qed.

Lemma computeNextGeneration_by_life_witness :
  wf clickedBlinker /\
  wf (set_grid (grid_set (grid clickedBlinker) 2 2 2) clickedBlinker) /\
  (forall i j,
     alive (grid clickedBlinker) i j =
     alive (grid (set_grid (grid_set (grid clickedBlinker) 2 2 2)
                    clickedBlinker)) i j) /\
  exists t1 t2 g',
    computeNextGeneration clickedBlinker =
      (t1, Ok (tt, set_grid g' clickedBlinker)) /\
    computeNextGeneration
      (set_grid (grid_set (grid clickedBlinker) 2 2 2) clickedBlinker) =
      (t2, Ok (tt, set_grid g'
                     (set_grid (grid_set (grid clickedBlinker) 2 2 2)
                        clickedBlinker))) /\
    nextGeneration (rows clickedBlinker) (cols clickedBlinker)
      (grid clickedBlinker) g'.
Proof.
  assert (Hwf2 : wf (set_grid (grid_set (grid clickedBlinker) 2 2 2)
                       clickedBlinker)).
  { apply wf_set_grid; [exact wf_clickedBlinker |].
    apply shaped_grid_set. apply wf_clickedBlinker. }
  assert (Hlife : forall i j,
     alive (grid clickedBlinker) i j =
     alive (grid (set_grid (grid_set (grid clickedBlinker) 2 2 2)
                    clickedBlinker)) i j).
  { intros i j. unfold alive. cbn [grid set_grid].
    rewrite (cellAt_grid_set 5 5);
      [| apply wf_clickedBlinker | lia | lia].
    destruct (Z.eqb_spec i 2); destruct (Z.eqb_spec j 2); cbn [andb];
      subst; reflexivity. }
  split; [exact wf_clickedBlinker |]. split; [exact Hwf2 |].
  split; [exact Hlife |].
  exact (computeNextGeneration_by_life clickedBlinker _ wf_clickedBlinker
           Hwf2 eq_refl eq_refl Hlife).
Defined.


(** X21.  [randomizeGrid] forgets the old grid and decides every cell by a
    draw of its own: it makes one call of [Math.random()] per cell, row by
    row, no two cells read the same draw, and a cell holds 3 when its draw
    is greater than 0.7 (that is [1 - RANDOM_DENSITY]) and 0 otherwise.
    Nothing is painted and no other variable changes. *)
Theorem randomizeGrid_own_draws w :
  0 <= rows w < 4294967296 -> 0 <= cols w < 4294967296 ->
  exists g',
    randomizeGrid w =
      ([], Ok (tt, set_randomCalls (randomCalls w + rows w * cols w)
                     (set_grid g' w))) /\
    shaped (rows w) (cols w) g' /\
    (forall i j, 0 <= i < rows w -> 0 <= j < cols w ->
       let u := randomTape w (randomCalls w + i * cols w + j) in
       ((7 # 10 < u)%Q -> cellAt g' i j = Some 3) /\
       ((u <= 7 # 10)%Q -> cellAt g' i j = Some 0)) /\
    (forall i j i' j',
       0 <= i < rows w -> 0 <= j < cols w ->
       0 <= i' < rows w -> 0 <= j' < cols w ->
       randomCalls w + i * cols w + j = randomCalls w + i' * cols w + j' ->
       i = i' /\ j = j').
Proof.
  intros Hr Hc.
  destruct (wp_randomizeGridWith (fun _ => False) RANDOM_DENSITY w
              (fun _ w' => exists g',
                 w' = set_randomCalls (randomCalls w + rows w * cols w)
                        (set_grid g' w) /\
                 randomized RANDOM_DENSITY (randomTape w) (randomCalls w)
                   (rows w) (cols w) g') Hr Hc)
    as (t & [] & w' & Hrun & Ht & g' & -> & Hshape & Hcells).
  { intros g' Hg'. exists g'. split; [reflexivity | exact Hg']. }
  apply no_events in Ht. subst t.
  exists g'. split; [exact Hrun |]. split; [exact Hshape |]. split.
  - intros i j Hi Hj u. subst u. rewrite (Hcells i j Hi Hj).
    unfold drawnCell.
    destruct (Qlt_le_dec (1 - RANDOM_DENSITY) _) as [Hlt | Hle]; split.
    + reflexivity.
    + intros Hu. exfalso. apply (Qlt_not_le _ _ Hlt).
      eapply Qle_trans; [exact Hu |]. vm_compute. discriminate.
    + intros Hu. exfalso. apply (Qlt_not_le _ _ Hu).
      eapply Qle_trans; [exact Hle |]. vm_compute. discriminate.
    + reflexivity.
  - intros i j i' j' Hi Hj Hi' Hj' Heq.
    assert (Hii : i = i') by nia.
    subst i'. split; [reflexivity | lia].
Qed.

Lemma randomizeGrid_own_draws_witness :
  0 <= rows drawingWorld < 4294967296 /\
  0 <= cols drawingWorld < 4294967296 /\
  exists g',
    randomizeGrid drawingWorld =
      ([], Ok (tt, set_randomCalls
                     (randomCalls drawingWorld
                      + rows drawingWorld * cols drawingWorld)
                     (set_grid g' drawingWorld))) /\
    shaped (rows drawingWorld) (cols drawingWorld) g' /\
    (forall i j, 0 <= i < rows drawingWorld -> 0 <= j < cols drawingWorld ->
       let u := randomTape drawingWorld
                  (randomCalls drawingWorld + i * cols drawingWorld + j) in
       ((7 # 10 < u)%Q -> cellAt g' i j = Some 3) /\
       ((u <= 7 # 10)%Q -> cellAt g' i j = Some 0)) /\
    (forall i j i' j',
       0 <= i < rows drawingWorld -> 0 <= j < cols drawingWorld ->
       0 <= i' < rows drawingWorld -> 0 <= j' < cols drawingWorld ->
       randomCalls drawingWorld + i * cols drawingWorld + j =
       randomCalls drawingWorld + i' * cols drawingWorld + j' ->
       i = i' /\ j = j').
Proof.
  split; [cbn; lia |]. split; [cbn; lia |].
  apply (randomizeGrid_own_draws drawingWorld); cbn; lia.
Defined.
